(** * SQB search query generator: the query assembly of [sqg/sqg.py]

    A shallow embedding of [clean_term], [format_group], [build_query] and
    [build_queries_by_main_group], and the properties of the specification
    that concern them.

    Modelling choices.
    - A Python [str] is a [string]; a character stands for the code point
      of the same number (code points below 256).  Comparison of strings is
      lexicographic on code points, as in Python.
    - A [Set[str]] is a [gset string].  Python does not fix the order in
      which a set hands out its elements, and the order changes from one
      run to the next: the functions take that order as a parameter
      ([set_order]), any enumeration of each set.
    - [group_terms] is a [dict] whose iteration order matters (insertion
      order): an association list; its keys are distinct ([NoDup]).
    - [group_logic] is only ever looked up: a [gmap] from group names to the
      settings of the group.  The inner dictionary has the keys ["quote"],
      ["operator"] and ["internal_operator"], each of which may be absent.
    - A raised exception is a value of [exn]; a call returns [Ok v] or
      [Raise e].  The specification's [ConfigurationError] is the
      [KeyError] of a failed lookup, its [InvalidMainGroupError] the
      [ValueError] that [build_queries_by_main_group] raises. *)

From Stdlib Require Import Ascii String.
From stdpp Require Import base option list sorting strings gmap.

(** ** Python primitives *)

Module Py.

(** [str.isspace] on one character. *)
Definition isspace (c : ascii) : bool :=
  let n := N_of_ascii c in
  ((9 <=? n) && (n <=? 13) || (28 <=? n) && (n <=? 32)
   || (n =? 133) || (n =? 160))%N.

Fixpoint lstrip (s : string) : string :=
  match s with
  | EmptyString => EmptyString
  | String c r => if isspace c then lstrip r else s
  end.

Fixpoint rstrip (s : string) : string :=
  match s with
  | EmptyString => EmptyString
  | String c r =>
      match rstrip r with
      | EmptyString => if isspace c then EmptyString else String c EmptyString
      | r' => String c r'
      end
  end.

(** [s.strip()] *)
Definition strip (s : string) : string := rstrip (lstrip s).

(** [c in s] for a needle of one character. *)
Fixpoint contains (c : ascii) (s : string) : bool :=
  match s with
  | EmptyString => false
  | String d r => bool_decide (c = d) || contains c r
  end.

(** [sep.join(parts)] *)
Definition join (sep : string) (parts : list string) : string :=
  String.concat sep parts.

(** [sorted(l)] on a list of strings. *)
Definition sorted_list (l : list string) : list string :=
  merge_sort String.le l.

(** The order in which sets are iterated: some enumeration of each. *)
Record set_order : Type := SetOrder {
  iter : gset string → list string;
  iter_perm : ∀ s, iter s ≡ₚ elements s;
}.

(** [sorted(s)] for a set [s]. *)
Definition sorted (o : set_order) (s : gset string) : list string :=
  sorted_list (iter o s).

(** Exceptions the functions raise. *)
Inductive exn : Type :=
| KeyError (key : string)
| ValueError (msg : string).

Inductive result (A : Type) : Type :=
| Ok (a : A)
| Raise (e : exn).
Global Arguments Ok {A} a.
Global Arguments Raise {A} e.

Global Instance result_ret : MRet result := λ A a, Ok a.
Global Instance result_bind : MBind result := λ A B f m,
  match m with
  | Ok a => f a
  | Raise e => Raise e
  end.

(** An insertion-ordered [dict] with string keys. *)
Abbreviation dict V := (list (string * V)).

(** [for k in d] *)
Definition keys {V} (d : dict V) : list string := d.*1.

Definition get {V} (d : dict V) (k : string) : option V :=
  snd <$> List.find (λ kv, bool_decide (kv.1 = k)) d.

(** [d[k]] *)
Definition getitem {V} (d : dict V) (k : string) : result V :=
  match get d k with
  | Some v => Ok v
  | None => Raise (KeyError k)
  end.

(** [enumerate(l)] *)
Definition enumerate {A} (l : list A) : list (nat * A) :=
  imap (λ i a, (i, a)) l.

End Py.

Import Py.

(** ** Data model *)

(** One entry of [group_logic]: the inner dictionary. *)
Record logic : Type := Logic {
  quote : option bool;
  operator : option string;
  internal_operator : option string;
}.

Definition dquote : ascii := "034"%char.

(** ** [sqg.py] *)

Definition clean_term (term : string) (quote : bool) : string :=
  if bool_decide (term = "") then ""
  else
    let term := strip term in
    if quote || contains " " term
    then String dquote (term +:+ String dquote "")
    else term.

(** [group_logic[group]] *)
Definition logic_of (group_logic : gmap string logic) (group : string)
  : result logic :=
  match group_logic !! group with
  | Some lg => Ok lg
  | None => Raise (KeyError group)
  end.

(** [d[key]] on the inner dictionary. *)
Definition field {A} (key : string) (v : option A) : result A :=
  match v with
  | Some a => Ok a
  | None => Raise (KeyError key)
  end.

(** [d.get("internal_operator", "OR")] *)
Definition get_internal_operator (lg : logic) : string :=
  default "OR" (internal_operator lg).

(** The comprehension
    [[(group, group_terms[group]) for group in group_terms if ...]];
    a key the dictionary enumerates is always found. *)
Definition items_where (keep : string → gset string → bool)
    (group_terms : dict (gset string)) : list (string * gset string) :=
  omap (λ group,
          match get group_terms group with
          | Some terms => if keep group terms then Some (group, terms) else None
          | None => None
          end) (keys group_terms).

(** The truth value of a set. *)
Definition nonempty (terms : gset string) : bool :=
  bool_decide (terms ≠ ∅).

Section sqg.
Context (o : set_order).

Definition format_group (terms : gset string) (quote : bool)
    (internal_operator : string) : string :=
  let formatted :=
    (λ term, clean_term term quote)
      <$> filter (λ term, term ≠ "") (sorted o terms) in
  match formatted with
  | [] => ""
  | _ => "(" +:+ join (" " +:+ internal_operator +:+ " ") formatted +:+ ")"
  end.

Definition build_query (group_terms : dict (gset string))
    (group_logic : gmap string logic) : result string :=
  let group_items := items_where (λ _ terms, nonempty terms) group_terms in
  parts ← mapM (λ '(i, (group, terms)),
      lg ← logic_of group_logic group;
      quote ← field "quote" (quote lg);
      let internal_op := get_internal_operator lg in
      let group_str := format_group terms quote internal_op in
      if bool_decide (i < length group_items - 1) then
        outer_op ← field "operator" (operator lg);
        mret (group_str +:+ " " +:+ outer_op)
      else mret group_str) (enumerate group_items);
  mret (join " " parts).

Definition build_queries_by_main_group (group_terms : dict (gset string))
    (group_logic : gmap string logic) (main_group : string)
  : result (list (string * string)) :=
  if bool_decide (main_group ∉ keys group_terms) then
    Raise (ValueError
             ("Main group '" +:+ main_group
              +:+ "' not found in group terms."))
  else
    let static_groups :=
      items_where (λ g terms, bool_decide (g ≠ main_group) && nonempty terms)
        group_terms in
    main_terms ← getitem group_terms main_group;
    let main_values := sorted o main_terms in
    mapM (λ val,
        parts ← mapM (λ '(i, (group, terms)),
            lg ← logic_of group_logic group;
            quote ← field "quote" (quote lg);
            let internal_op := get_internal_operator lg in
            let group_str := format_group terms quote internal_op in
            op ← field "operator" (operator lg);
            mret (group_str +:+ " " +:+ op)) (enumerate static_groups);
        lg ← logic_of group_logic main_group;
        quote ← field "quote" (quote lg);
        let internal_op := get_internal_operator lg in
        let main_str := format_group {[ val ]} quote internal_op in
        mret (val, join " " (parts ++ [main_str]))) main_values.

End sqg.

(** ** Two iteration orders, and the scenarios of the specification *)

Definition elements_order : set_order :=
  SetOrder elements (λ s, Permutation_refl (elements s)).

Definition reverse_order : set_order :=
  SetOrder (λ s, reverse (elements s)) (λ s, reverse_Permutation (elements s)).

Definition colour_terms : dict (gset string) :=
  [("color", {[ "red"; "blue" ]}); ("size", {[ "large" ]})].

Definition colour_logic : gmap string logic :=
  {[ "color" := Logic (Some false) (Some "AND") (Some "OR");
     "size" := Logic (Some true) (Some "AND") (Some "OR") ]}.

Definition sparse_terms : dict (gset string) :=
  [("color", {[ "red"; "blue" ]}); ("size", ∅)].

Definition fruit_terms : dict (gset string) :=
  [("fruit", {[ "apple"; "banana" ]})].

Definition fruit_logic : gmap string logic :=
  {[ "fruit" := Logic (Some false) (Some "OR") (Some "OR") ]}.

(** ** Vocabulary of the specification *)

(** Every character of [s] is whitespace. *)
Fixpoint all_space (s : string) : bool :=
  match s with
  | EmptyString => true
  | String c r => isspace c && all_space r
  end.

Definition first_char (s : string) : option ascii :=
  match s with
  | EmptyString => None
  | String c _ => Some c
  end.

Fixpoint last_char (s : string) : option ascii :=
  match s with
  | EmptyString => None
  | String c r =>
      match r with
      | EmptyString => Some c
      | _ => last_char r
      end
  end.

Definition not_space (c : option ascii) : bool :=
  match c with
  | Some c => negb (isspace c)
  | None => true
  end.

(** [s] has no leading and no trailing whitespace. *)
Definition trimmed (s : string) : bool :=
  not_space (first_char s) && not_space (last_char s).

(** [s] contains the character [c]. *)
Definition has_char (c : ascii) (s : string) : Prop :=
  ∃ l r, s = l +:+ String c r.

(** [s] between double quotes. *)
Definition quoted (s : string) : string :=
  String dquote EmptyString +:+ s +:+ String dquote EmptyString.

(** The groups with terms, in the order of the mapping. *)
Definition nonempty_groups (group_terms : dict (gset string))
  : list (string * gset string) :=
  filter (λ kv, kv.2 ≠ ∅) group_terms.

(** The groups with terms other than the main group, in the order of the
    mapping. *)
Definition static_groups (group_terms : dict (gset string))
    (main_group : string) : list (string * gset string) :=
  filter (λ kv, kv.1 ≠ main_group ∧ kv.2 ≠ ∅) group_terms.

(** The mapping without the group [g]. *)
Definition without (g : string) (group_terms : dict (gset string))
  : dict (gset string) :=
  filter (λ kv, kv.1 ≠ g) group_terms.

(** The logic mapping has an entry for [g] that holds ["quote"]. *)
Definition has_quote (group_logic : gmap string logic) (g : string) : bool :=
  match group_logic !! g with
  | Some lg => bool_decide (is_Some (quote lg))
  | None => false
  end.

(** The logic mapping has an entry for [g] that holds ["quote"] and
    ["operator"]. *)
Definition has_quote_operator (group_logic : gmap string logic) (g : string)
  : bool :=
  match group_logic !! g with
  | Some lg =>
      bool_decide (is_Some (quote lg)) && bool_decide (is_Some (operator lg))
  | None => false
  end.

(** The logic mapping has what a query per value of [main_group] reads. *)
Definition logic_complete (group_terms : dict (gset string))
    (group_logic : gmap string logic) (main_group : string) : bool :=
  has_quote group_logic main_group
  && forallb (λ kv, has_quote_operator group_logic kv.1)
       (static_groups group_terms main_group).

(** [c] is the formatted clause of the group [kv] and [op] its operator. *)
Definition static_clause (o : set_order) (group_logic : gmap string logic)
    (kv : string * gset string) (c : string * string) : Prop :=
  ∃ lg q,
    group_logic !! kv.1 = Some lg ∧ quote lg = Some q
    ∧ operator lg = Some c.2
    ∧ c.1 = format_group o kv.2 q (get_internal_operator lg).

(** ** The loop bodies, named

    The clause of a group, and the clause followed by the operator of the
    group, as the two loops compute them. *)
Definition clause (o : set_order) (group_logic : gmap string logic)
    (kv : string * gset string) : result string :=
  lg ← logic_of group_logic kv.1;
  q ← field "quote" (quote lg);
  mret (format_group o kv.2 q (get_internal_operator lg)).

Definition clause_op (o : set_order) (group_logic : gmap string logic)
    (kv : string * gset string) : result string :=
  lg ← logic_of group_logic kv.1;
  q ← field "quote" (quote lg);
  op ← field "operator" (operator lg);
  mret (format_group o kv.2 q (get_internal_operator lg) +:+ " " +:+ op).

(** The parts of the combined query: every group but the last carries its
    operator. *)
Fixpoint parts_of (o : set_order) (group_logic : gmap string logic)
    (items : list (string * gset string)) : result (list string) :=
  match items with
  | [] => mret []
  | kv :: rest =>
      p ← (match rest with
           | [] => clause o group_logic kv
           | _ => clause_op o group_logic kv
           end);
      ps ← parts_of o group_logic rest;
      mret (p :: ps)
  end.

(** The query for the value [val] of the main group [mg], given the static
    groups. *)
Definition query_for (o : set_order) (group_logic : gmap string logic)
    (mg : string) (static : list (string * gset string)) (val : string)
  : result (string * string) :=
  parts ← mapM (clause_op o group_logic) static;
  c ← clause o group_logic (mg, {[ val ]});
  mret (val, join " " (parts ++ [c])).

(** The terms [format_group] prints, in the order in which it prints them. *)
Definition kept_terms (o : set_order) (terms : gset string) : list string :=
  filter (λ term, term ≠ "") (sorted o terms).

(** ** Reading the terms: [read_csv_terms] and [read_terms_grouped]

    The two loaders are modelled from the point where the file has been
    decoded and parsed: [rows] is the list of the rows of the
    [csv.DictReader], each a dictionary from field names to cells, and
    [fieldnames] its list of field names.  A cell is a string: the rows
    that the reader fills up with [None], for records with fewer fields
    than the header, are outside the model. *)

(** [d[k] = v] on an insertion-ordered dictionary: in place when [k] is a
    key, at the end otherwise. *)
Fixpoint setitem {V} (d : dict V) (k : string) (v : V) : dict V :=
  match d with
  | [] => [(k, v)]
  | (k', v') :: d' =>
      if decide (k' = k) then (k, v) :: d' else (k', v') :: setitem d' k v
  end.

(** [{row[col].strip() for row in rows if row[col].strip()}] *)
Definition column_terms (rows : list (dict string)) (col : string)
  : result (gset string) :=
  cells ← mapM (λ row, cell ← getitem row col; mret (strip cell)) rows;
  mret (list_to_set (filter (λ value, value ≠ "") cells)).

(** The dictionary comprehension over the field names, entry by entry. *)
Fixpoint columns_into (rows : list (dict string)) (fieldnames : list string)
    (acc : dict (gset string)) : result (dict (gset string)) :=
  match fieldnames with
  | [] => mret acc
  | col :: rest =>
      terms ← column_terms rows col;
      columns_into rows rest (setitem acc col terms)
  end.

Definition read_csv_terms (fieldnames : list string)
    (rows : list (dict string)) : result (dict (gset string)) :=
  columns_into rows fieldnames [].

(** [group_terms.setdefault(key, set()).add(value)] *)
Fixpoint add_term (group_terms : dict (gset string)) (key value : string)
  : dict (gset string) :=
  match group_terms with
  | [] => [(key, {[ value ]})]
  | (k, terms) :: rest =>
      if decide (k = key) then (k, {[ value ]} ∪ terms) :: rest
      else (k, terms) :: add_term rest key value
  end.

Definition read_terms_grouped (rows : list (dict string))
  : dict (gset string) :=
  foldl (λ group_terms row,
           foldl (λ group_terms '(key, value),
                    let value := strip value in
                    if bool_decide (value ≠ "")
                    then add_term group_terms key value
                    else group_terms)
             group_terms row)
    [] rows.

(** What the loop of [read_terms_grouped] keeps true, [P col t] saying
    that the term [t] has been met in the column [col]. *)
Definition grouped_inv (P : string → string → Prop)
    (gt : dict (gset string)) : Prop :=
  NoDup (keys gt)
  ∧ ∀ col,
      match get gt col with
      | Some ts => ts ≠ ∅ ∧ ∀ t, t ∈ ts ↔ P col t
      | None => ∀ t, ¬ P col t
      end.

(** The term [t] is a cell of the column [col] in one of the rows,
    stripped, and is not empty. *)
Definition cell_term (rows : list (dict string)) (col t : string) : Prop :=
  t ≠ "" ∧ ∃ row cell, row ∈ rows ∧ (col, cell) ∈ row ∧ strip cell = t.

(** Two rows of a file with the columns ["colour"] and ["size"]. *)
Definition sample_rows : list (dict string) :=
  [[("colour", " red "); ("size", "")];
   [("colour", "dark blue"); ("size", "  ")]].

(** ** Writing the queries: [write_queries]

    A query is a pair of a label and a text; the label is a value of the
    main group or [None] (the combined query).  The text file is modelled
    by its content. *)

Definition newline : string := String "010"%char EmptyString.

(** [str(val)], as the f-string prints a label. *)
Definition label_str (val : option string) : string :=
  match val with
  | Some s => s
  | None => "None"
  end.

(** The truth value of [main_group]: [None] and the empty string are
    false. *)
Definition truthy (main_group : option string) : bool :=
  match main_group with
  | Some s => bool_decide (s ≠ "")
  | None => false
  end.

(** The order of the tuples that [sorted(queries)] compares: by label,
    then by text.  Two [None] labels are equal; a [None] and a string do
    not compare (see [mixed]). *)
Definition label_le (a b : option string) : Prop :=
  match a, b with
  | None, _ => True
  | Some _, None => False
  | Some x, Some y => String.le x y
  end.

Global Instance label_le_dec : RelDecision label_le.
Proof. intros [x|] [y|]; simpl; apply _. Defined.

Definition query_le (a b : option string * string) : Prop :=
  label_le a.1 b.1 ∧ (a.1 = b.1 → String.le a.2 b.2).

Global Instance query_le_dec : RelDecision query_le.
Proof. intros a b. unfold query_le. apply _. Defined.

(** Some label is [None] and some is a string: sorting must compare two
    such tuples (a sort that compares none of them cannot tell their
    order), and the comparison raises [TypeError]. *)
Definition mixed (queries : list (option string * string)) : bool :=
  existsb (λ q, bool_decide (q.1 = None)) queries
  && existsb (λ q, bool_decide (q.1 ≠ None)) queries.

(** [sorted(queries)]; [None] stands for the [TypeError]. *)
Definition sorted_queries (queries : list (option string * string))
  : option (list (option string * string)) :=
  if mixed queries then None else Some (merge_sort query_le queries).

(** What one turn of the loop writes. *)
Definition block (main_group : option string)
    (q : option string * string) : string :=
  match main_group with
  | Some mg =>
      if bool_decide (mg ≠ "")
      then "-- " +:+ mg +:+ ": " +:+ label_str q.1 +:+ " --" +:+ newline
           +:+ q.2 +:+ newline +:+ newline
      else q.2 +:+ newline +:+ newline
  | None => q.2 +:+ newline +:+ newline
  end.

(** The text the loop writes; [None] when [sorted] raises. *)
Definition queries_text (queries : list (option string * string))
    (main_group : option string) : option string :=
  match sorted_queries queries with
  | Some qs => Some (String.concat "" (block main_group <$> qs))
  | None => None
  end.


(** The queries of [build_queries_by_main_group], as the writer gets
    them. *)
Definition labelled (qs : list (string * string))
  : list (option string * string) :=
  (λ vq, (Some vq.1, vq.2)) <$> qs.

(** ** The summary of a run: [write_summary_metadata]

    The metadata file is modelled by the records written to it, the
    header or a row of values; the quoting that the [csv] module applies
    to a value is not modelled.  The time stamp is an argument. *)

Module Summary.
Record row : Type := Row {
  sq_id : string;
  timestamp : string;
  input_file : string;
  main_group : string;
  group_count : nat;
  terms_total : nat;
  query_count : nat;
  group_logic : string;
}.
End Summary.

Inductive csv_record : Type :=
| Header
| Data (r : Summary.row).

(** [main_group or "(combined)"] *)
Definition main_group_or_combined (main_group : option string) : string :=
  match main_group with
  | Some mg => if bool_decide (mg ≠ "") then mg else "(combined)"
  | None => "(combined)"
  end.

(** The value of the column ["group_logic"]. *)
Definition group_logic_summary (group_terms : dict (gset string))
    (group_logic : gmap string logic) (main_group : option string)
  : result string :=
  parts ← mapM (λ g,
      lg ← logic_of group_logic g;
      op ← field "operator" (operator lg);
      mret (g +:+ ":" +:+ op +:+ "/" +:+ get_internal_operator lg))
    (filter (λ g, Some g ≠ main_group) (keys group_terms));
  mret (join "; " parts).

Definition data_row (sq_id now input_file : string)
    (main_group : option string) (group_terms : dict (gset string))
    (group_logic : gmap string logic) (num_queries : nat)
  : result Summary.row :=
  summary ← group_logic_summary group_terms group_logic main_group;
  mret {| Summary.sq_id := sq_id;
          Summary.timestamp := now;
          Summary.input_file := input_file;
          Summary.main_group := main_group_or_combined main_group;
          Summary.group_count := length group_terms;
          Summary.terms_total := sum_list (size <$> group_terms.*2);
          Summary.query_count := num_queries;
          Summary.group_logic := summary |}.

Definition write_summary_metadata (sq_id now input_file : string)
    (main_group : option string) (group_terms : dict (gset string))
    (group_logic : gmap string logic) (num_queries : nat)
    (metadata_path : string) (fs : gmap string (list csv_record))
  : result (gmap string (list csv_record)) :=
  row ← data_row sq_id now input_file main_group group_terms group_logic
          num_queries;
  let file_exists := bool_decide (is_Some (fs !! metadata_path)) in
  let old := default [] (fs !! metadata_path) in
  mret (<[metadata_path :=
            old ++ (if file_exists then [] else [Header]) ++ [Data row]]> fs).

(** The logic mapping has an entry for [g] that holds ["operator"]. *)
Definition has_operator (group_logic : gmap string logic) (g : string) : bool :=
  match group_logic !! g with
  | Some lg => bool_decide (is_Some (operator lg))
  | None => false
  end.

(** A metadata file as the function builds it from nothing: the header,
    then rows. *)
Definition headed (file : list csv_record) : Prop :=
  ∃ rows, file = Header :: (Data <$> rows).

(** ** The command line: [cli.py]

    What the user types is the list [inputs] of the lines that the calls of
    [input] return, one after the other; a call when no line is left
    raises [EOFError], the result [None] of the functions below.  What is
    printed is not modelled.  [upper], [lower] and [parse_int] stand for
    [str.upper], [str.lower] and [int] (with [None] for its
    [ValueError]). *)

Section cli.
Context (upper lower : string → string) (parse_int : string → option Z).

(** The loops [while True: ... if answer in valid: break]. *)
Fixpoint read_choice (valid : list string) (inputs : list string)
  : option (string * list string) :=
  match inputs with
  | [] => None
  | line :: inputs =>
      let answer := upper (strip line) in
      if bool_decide (answer ∈ valid) then Some (answer, inputs)
      else read_choice valid inputs
  end.

(** The loop of [prompt_group_settings] over the headers. *)
Fixpoint prompt_headers (headers : list string) (settings : gmap string logic)
    (inputs : list string) : option (gmap string logic * list string) :=
  match headers with
  | [] => Some (settings, inputs)
  | header :: headers =>
      match inputs with
      | [] => None
      | line :: inputs =>
          let quote := bool_decide (lower (strip line) = "y") in
          match read_choice ["AND"; "OR"; "NOT"] inputs with
          | None => None
          | Some (operator, inputs) =>
              match read_choice ["OR"; "AND"] inputs with
              | None => None
              | Some (internal_operator, inputs) =>
                  prompt_headers headers
                    (<[header := Logic (Some quote) (Some operator)
                                   (Some internal_operator)]> settings)
                    inputs
              end
          end
      end
  end.

Definition prompt_group_settings (headers : list string)
    (inputs : list string) : option (gmap string logic * list string) :=
  prompt_headers headers ∅ inputs.

(** [headers[choice - 1]] is only reached with the index in range; the
    last [None] of the inner match is never returned. *)
Fixpoint select_main_group (headers : list string) (inputs : list string)
  : option (option string * list string) :=
  match inputs with
  | [] => None
  | line :: inputs =>
      match parse_int (strip line) with
      | Some choice =>
          if bool_decide (choice = 0%Z) then Some (None, inputs)
          else if bool_decide (1 ≤ choice ≤ Z.of_nat (length headers))%Z then
            match headers !! Z.to_nat (choice - 1) with
            | Some header => Some (Some header, inputs)
            | None => None
            end
          else select_main_group headers inputs
      | None => select_main_group headers inputs
      end
  end.

End cli.

(** The queries of [main]: one per value of the main group when
    [main_group] is true, and otherwise the combined query with the label
    [None]. *)
Definition main_queries (o : set_order) (group_terms : dict (gset string))
    (group_settings : gmap string logic) (main_group : option string)
  : result (list (option string * string)) :=
  let combined :=
    q ← build_query o group_terms group_settings;
    mret [(None, q)] in
  match main_group with
  | Some mg =>
      if bool_decide (mg ≠ "") then
        qs ← build_queries_by_main_group o group_terms group_settings mg;
        mret (labelled qs)
      else combined
  | None => combined
  end.

(** The settings that the prompt builds for one header. *)
Definition asked (lg : logic) : Prop :=
  ∃ q op iop,
    lg = Logic (Some q) (Some op) (Some iop)
    ∧ op ∈ ["AND"; "OR"; "NOT"] ∧ iop ∈ ["OR"; "AND"].

(** ** Strings *)

Lemma append_cons c s t : String c s +:+ t = String c (s +:+ t).
Proof. reflexivity. Qed.

Lemma append_nil_l s : "" +:+ s = s.
Proof. reflexivity. Qed.

Lemma append_nil_r s : s +:+ "" = s.
Proof. induction s as [|c s IH]; [done|]. by rewrite append_cons, IH. Qed.

Lemma append_assoc s t u : (s +:+ t) +:+ u = s +:+ t +:+ u.
Proof. induction s as [|c s IH]; [done|]. by rewrite !append_cons, IH. Qed.

Lemma contains_has_char c s : contains c s = true ↔ has_char c s.
Proof.
  unfold has_char. induction s as [|d s IH]; simpl.
  - split; [done|]. intros ([|??] & r & ?); discriminate.
  - rewrite orb_true_iff, bool_decide_eq_true, IH. split.
    + intros [->|(l & r & ->)].
      * by exists "", s.
      * by exists (String d l), r.
    + intros ([|e l] & r & Heq); rewrite ?append_nil_l, ?append_cons in Heq;
        simplify_eq; eauto.
Qed.

Lemma lstrip_split s :
  ∃ l, s = l +:+ lstrip s ∧ all_space l = true
       ∧ not_space (first_char (lstrip s)) = true.
Proof.
  induction s as [|c s (l & Hs & Hl & Hf)]; simpl.
  - by exists "".
  - destruct (isspace c) eqn:Hc.
    + exists (String c l). rewrite append_cons, <-Hs. simpl. by rewrite Hc.
    + exists "". simpl. by rewrite Hc.
Qed.

Lemma rstrip_split s :
  ∃ r, s = rstrip s +:+ r ∧ all_space r = true
       ∧ not_space (last_char (rstrip s)) = true.
Proof.
  induction s as [|c s (r & Hs & Hr & Hf)]; simpl.
  - by exists "".
  - destruct (rstrip s) as [|d t] eqn:Ht.
    + destruct (isspace c) eqn:Hc.
      * exists (String c r). rewrite append_nil_l in *. subst s.
        simpl. by rewrite Hc.
      * exists r. rewrite append_nil_l in Hs. subst s.
        simpl. by rewrite Hc.
    + exists r. by rewrite append_cons, <-Hs.
Qed.

Lemma rstrip_first s :
  rstrip s = "" ∨ first_char (rstrip s) = first_char s.
Proof.
  destruct s as [|c s]; simpl; [by left|].
  destruct (rstrip s); [destruct (isspace c)|]; auto.
Qed.

Lemma lstrip_blank s : lstrip s = "" ↔ all_space s = true.
Proof.
  induction s as [|c s IH]; simpl; [done|].
  destruct (isspace c); simpl; [done|]. split; discriminate.
Qed.

Lemma rstrip_blank s : rstrip s = "" ↔ all_space s = true.
Proof.
  induction s as [|c s IH]; simpl; [done|].
  destruct (rstrip s) eqn:Ht, (isspace c); simpl; try done.
  - split; [discriminate|]. intros ?%IH. discriminate.
Qed.

Lemma all_space_append s t :
  all_space (s +:+ t) = all_space s && all_space t.
Proof.
  induction s as [|c s IH]; [done|].
  rewrite append_cons. simpl. by rewrite IH, andb_assoc.
Qed.

Lemma strip_blank s : strip s = "" ↔ all_space s = true.
Proof.
  unfold strip. rewrite rstrip_blank.
  destruct (lstrip_split s) as (l & Hs & Hl & _).
  rewrite Hs at 2. rewrite all_space_append, Hl. done.
Qed.

Lemma lstrip_id s : not_space (first_char s) = true → lstrip s = s.
Proof. destruct s as [|c s]; simpl; [done|]. by intros ->%negb_true_iff. Qed.

Lemma rstrip_id s : not_space (last_char s) = true → rstrip s = s.
Proof.
  induction s as [|c s IH]; [done|]. intros Hl. simpl in *.
  destruct s as [|d s].
  - simpl. apply negb_true_iff in Hl. by rewrite Hl.
  - rewrite IH by done. done.
Qed.

Lemma strip_trimmed s : trimmed s = true → strip s = s.
Proof.
  unfold trimmed, strip. intros [Hf Hl]%andb_true_iff.
  by rewrite (lstrip_id s), rstrip_id.
Qed.

(** What [strip] does: it cuts a whitespace prefix and a whitespace suffix
    and leaves a string that starts and ends with other characters. *)
Lemma strip_split s :
  ∃ l r, s = l +:+ strip s +:+ r ∧ all_space l = true ∧ all_space r = true
         ∧ trimmed (strip s) = true.
Proof.
  unfold strip.
  destruct (lstrip_split s) as (l & Hs & Hl & Hf).
  destruct (rstrip_split (lstrip s)) as (r & Hs' & Hr & Hf').
  exists l, r. split_and!; [by rewrite <-Hs'|done..|].
  unfold trimmed. rewrite Hf'.
  destruct (rstrip_first (lstrip s)) as [->| ->]; [done|]. by rewrite Hf.
Qed.

(** ** [clean_term] *)

Lemma clean_term_empty quote : clean_term "" quote = "".
Proof. reflexivity. Qed.

Lemma clean_term_nonempty term quote :
  term ≠ "" →
  clean_term term quote =
    if quote || contains " " (strip term) then quoted (strip term)
    else strip term.
Proof. intros Hne. unfold clean_term. by rewrite bool_decide_eq_false_2. Qed.

(** C2, refuted as stated: a term of two spaces consists only of
    whitespace, yet with [quote] set [clean_term] returns a pair of double
    quotes, not the empty string: the emptiness test comes before the
    call of [strip]. *)
Lemma clean_term_blank_counterexample :
  all_space "  " = true ∧ clean_term "  " true = quoted "" ∧ quoted "" ≠ "".
Proof. split_and!; [reflexivity..|discriminate]. Qed.

(** The term is stripped before the test for a space and before it is
    returned: a leading space neither forces quotes nor survives. *)
Example clean_term_leading_space :
  has_char " " " a" ∧ clean_term " a" false = "a".
Proof. split; [by exists "", "a"|reflexivity]. Qed.

(** C2, amended: leaving aside the non-empty term of whitespace alone with
    [quote] set, [clean_term] returns the empty string when the term is
    empty or consists of whitespace alone; otherwise it works on the term
    [t] left by cutting the leading and trailing whitespace (the term
    itself when there is none to cut) and returns [t] between double quotes
    exactly when [quote] is set or [t] contains a space, and [t] unchanged
    otherwise. *)
Theorem clean_term_stripped (term : string) (quote : bool) :
  (quote = true → term = "" ∨ all_space term = false) →
  ∃ l t r,
    term = l +:+ t +:+ r ∧ all_space l = true ∧ all_space r = true
    ∧ trimmed t = true
    ∧ (trimmed term = true → t = term)
    ∧ (all_space term = true → clean_term term quote = "")
    ∧ (all_space term = false →
       t ≠ ""
       ∧ (quote = true ∨ has_char " " t → clean_term term quote = quoted t)
       ∧ (quote = false → ¬ has_char " " t → clean_term term quote = t)).
Proof.
  intros Hterm.
  destruct (strip_split term) as (l & r & Hs & Hl & Hr & Ht).
  exists l, (strip term), r. split_and!; try done.
  - apply strip_trimmed.
  - intros Hblank. destruct (decide (term = "")) as [->|Hne]; [done|].
    rewrite clean_term_nonempty by done.
    apply strip_blank in Hblank as Hstrip. rewrite Hstrip.
    destruct quote; [|done]. destruct Hterm as [?|?]; congruence.
  - intros Hblank.
    assert (term ≠ "") as Hne by (by intros ->).
    rewrite clean_term_nonempty by done. split_and!.
    + intros Hs'%strip_blank. congruence.
    + intros [->|Hsp%contains_has_char]; [done|].
      by rewrite Hsp, orb_true_r.
    + intros -> Hsp. destruct (contains " " (strip term)) eqn:Hc; [|done].
      by apply contains_has_char in Hc.
Qed.

Lemma clean_term_stripped_witness :
  ∃ l t r,
    " New York " = l +:+ t +:+ r ∧ all_space l = true ∧ all_space r = true
    ∧ trimmed t = true
    ∧ (trimmed " New York " = true → t = " New York ")
    ∧ (all_space " New York " = true → clean_term " New York " false = "")
    ∧ (all_space " New York " = false →
       t ≠ ""
       ∧ (false = true ∨ has_char " " t
          → clean_term " New York " false = quoted t)
       ∧ (false = false → ¬ has_char " " t
          → clean_term " New York " false = t)).
Proof.
  apply (clean_term_stripped " New York " false). intros H. discriminate H.
Defined.

(** On a term without leading or trailing whitespace the claim holds as it
    is written. *)
Corollary clean_term_trimmed (term : string) (quote : bool) :
  trimmed term = true →
  (term = "" → clean_term term quote = "")
  ∧ (term ≠ "" →
     (quote = true ∨ has_char " " term → clean_term term quote = quoted term)
     ∧ (quote = false → ¬ has_char " " term → clean_term term quote = term)).
Proof.
  intros Ht. split; [by intros ->|]. intros Hne.
  rewrite clean_term_nonempty, strip_trimmed by done. split.
  - intros [->|Hsp%contains_has_char]; [done|]. by rewrite Hsp, orb_true_r.
  - intros -> Hsp. destruct (contains " " term) eqn:Hc; [|done].
    by apply contains_has_char in Hc.
Qed.

(** ** [sorted] *)

Lemma sorted_list_sorted l : StronglySorted String.le (sorted_list l).
Proof. apply StronglySorted_merge_sort; apply _. Qed.

Lemma sorted_list_perm l : sorted_list l ≡ₚ l.
Proof. apply merge_sort_Permutation. Qed.

(** There is one ascending arrangement of a list of strings: whichever
    algorithm [sorted] runs, this is its result. *)
Lemma sorted_list_unique l k :
  k ≡ₚ l → StronglySorted String.le k → k = sorted_list l.
Proof.
  intros Hp Hk. apply (StronglySorted_unique String.le);
    [done|apply sorted_list_sorted|by rewrite sorted_list_perm].
Qed.

Lemma sorted_list_proper l1 l2 : l1 ≡ₚ l2 → sorted_list l1 = sorted_list l2.
Proof.
  intros Hp. apply sorted_list_unique; [|apply sorted_list_sorted].
  by rewrite sorted_list_perm.
Qed.

Lemma StronglySorted_filter {A} (R : relation A) (P : A → Prop)
    `{∀ x, Decision (P x)} l :
  StronglySorted R l → StronglySorted R (filter P l).
Proof.
  induction 1 as [|x l Hl IH Hx]; [constructor|].
  rewrite filter_cons. case_decide; [|done].
  constructor; [done|]. apply Forall_forall. intros y [_ Hy]%list_elem_of_filter.
  by eapply Forall_forall in Hx.
Qed.

Section sorted.
Context (o : set_order).

(** The set enumerates its elements in some order; [sorted] does not
    depend on which. *)
Lemma sorted_order_irrelevant (o' : set_order) s : sorted o s = sorted o' s.
Proof.
  unfold sorted. apply sorted_list_proper. by rewrite !iter_perm.
Qed.

Lemma sorted_sorted s : StronglySorted String.le (sorted o s).
Proof. apply sorted_list_sorted. Qed.

Lemma sorted_perm s : sorted o s ≡ₚ elements s.
Proof. unfold sorted. by rewrite sorted_list_perm, iter_perm. Qed.

Lemma sorted_NoDup s : NoDup (sorted o s).
Proof. rewrite sorted_perm. apply NoDup_elements. Qed.

Lemma elem_of_sorted s x : x ∈ sorted o s ↔ x ∈ s.
Proof. by rewrite sorted_perm, elem_of_elements. Qed.

Lemma sorted_empty : sorted o ∅ = [].
Proof. apply Permutation_nil_r. by rewrite sorted_perm, elements_empty. Qed.

Lemma sorted_singleton x : sorted o {[ x ]} = [x].
Proof.
  apply Permutation_singleton_r. by rewrite sorted_perm, elements_singleton.
Qed.

Lemma length_sorted s : length (sorted o s) = size s.
Proof. by rewrite sorted_perm. Qed.

(** ** [format_group] *)

Lemma format_group_kept terms quote op :
  format_group o terms quote op =
    match kept_terms o terms with
    | [] => ""
    | kept =>
        "(" +:+ join (" " +:+ op +:+ " ")
                  ((λ t, clean_term t quote) <$> kept)
        +:+ ")"
    end.
Proof. unfold format_group, kept_terms. by destruct (filter _ _). Qed.

Lemma kept_terms_perm terms :
  kept_terms o terms ≡ₚ filter (λ t, t ≠ "") (elements terms).
Proof. unfold kept_terms. by rewrite sorted_perm. Qed.

Lemma kept_terms_sorted terms :
  StronglySorted String.le (kept_terms o terms).
Proof. apply StronglySorted_filter, sorted_sorted. Qed.

Lemma format_group_singleton x quote op :
  x ≠ "" →
  format_group o {[ x ]} quote op = "(" +:+ clean_term x quote +:+ ")".
Proof.
  intros Hx. rewrite format_group_kept. unfold kept_terms.
  by rewrite sorted_singleton, filter_cons_True.
Qed.

Lemma format_group_empty quote op : format_group o ∅ quote op = "".
Proof.
  rewrite format_group_kept. unfold kept_terms. by rewrite sorted_empty.
Qed.

Lemma format_group_order_irrelevant (o' : set_order) terms quote op :
  format_group o terms quote op = format_group o' terms quote op.
Proof. unfold format_group. by rewrite (sorted_order_irrelevant o'). Qed.

End sorted.

(** C6: in whatever order the set hands out its terms, [format_group]
    prints the list [kept] that holds the non-empty terms of the set and is
    in ascending order: each term of [kept] formatted by [clean_term], the
    results joined by the operator between two spaces, the whole between
    one pair of parentheses; nothing at all when [kept] is empty.  A set of
    one non-empty term is printed between parentheses as well, ["(x)"] for
    the term ["x"]. *)
Theorem format_group_spec (o : set_order) (terms : gset string)
    (quote : bool) (op : string) :
  (∃ kept,
     kept ≡ₚ filter (λ t, t ≠ "") (elements terms)
     ∧ StronglySorted String.le kept
     ∧ format_group o terms quote op =
         match kept with
         | [] => ""
         | _ =>
             "(" +:+ join (" " +:+ op +:+ " ")
                       ((λ t, clean_term t quote) <$> kept) +:+ ")"
         end)
  ∧ (∀ x,
       format_group o {[ x ]} quote op =
         if decide (x = "") then ""
         else "(" +:+ clean_term x quote +:+ ")")
  ∧ format_group o {[ "x" ]} false op = "(x)".
Proof.
  split_and!.
  - exists (kept_terms o terms).
    split_and!; [apply kept_terms_perm|apply kept_terms_sorted|].
    rewrite format_group_kept. by destruct (kept_terms _ _).
  - intros x. case_decide as Hx.
    + rewrite format_group_kept. unfold kept_terms.
      by rewrite sorted_singleton, filter_cons_False by (by intros ?).
    + by apply format_group_singleton.
  - by rewrite format_group_singleton.
Qed.

(** ** The result monad *)

Lemma bind_Ok {A B} (f : A → result B) a : Ok a ≫= f = f a.
Proof. reflexivity. Qed.

Lemma bind_Raise {A B} (f : A → result B) e : Raise e ≫= f = Raise e.
Proof. reflexivity. Qed.

Section mapM_result.
Context {A B : Type} (f : A → result B).

Lemma mapM_cons_result x l :
  mapM f (x :: l) = y ← f x; k ← mapM f l; mret (y :: k).
Proof. reflexivity. Qed.

Lemma mapM_Ok l k : mapM f l = Ok k ↔ Forall2 (λ x y, f x = Ok y) l k.
Proof.
  revert k. induction l as [|x l IH]; intros k.
  - split; [intros [= <-]; constructor|by inversion 1].
  - rewrite mapM_cons_result. split.
    + destruct (f x) as [y|e] eqn:Hx; [|done]. rewrite bind_Ok.
      destruct (mapM f l) as [k'|e] eqn:Hl; [|done]. rewrite bind_Ok.
      intros [= <-]. constructor; [done|]. by apply IH.
    + inversion 1 as [|? y ? k' Hx Hl]; subst.
      apply IH in Hl. by rewrite Hx, Hl.
Qed.

Lemma mapM_Ok_fmap (g : A → B) l :
  (∀ x, x ∈ l → f x = Ok (g x)) → mapM f l = Ok (g <$> l).
Proof.
  intros Hf. apply mapM_Ok. induction l as [|x l IH]; [constructor|].
  constructor; [apply Hf; left|]. apply IH. intros y Hy. apply Hf. by right.
Qed.

Lemma mapM_ext (g : A → result B) l :
  (∀ x, x ∈ l → f x = g x) → mapM f l = mapM g l.
Proof.
  induction l as [|x l IH]; intros Hf; [done|]. simpl.
  rewrite (Hf x) by left. rewrite IH; [done|].
  intros y Hy. apply Hf. by right.
Qed.
End mapM_result.

(** The index that [enumerate] adds does not matter to a body that ignores
    it. *)
Lemma mapM_imap_ignore {A B} (f : A → result B) (h : nat → nat) (l : list A) :
  mapM (λ '(i, a), f a) (imap (λ i a, (h i, a)) l) = mapM f l.
Proof.
  revert h. induction l as [|x l IH]; intros h; [done|]. simpl.
  by rewrite <-(IH (h ∘ S)).
Qed.

(** ** Dictionaries *)

Section dict.
Context {V : Type}.
Implicit Types d : dict V.

Lemma get_cons d k k' v :
  get ((k', v) :: d) k = if decide (k' = k) then Some v else get d k.
Proof.
  unfold get. simpl. case_decide.
  - by rewrite bool_decide_eq_true_2.
  - by rewrite bool_decide_eq_false_2.
Qed.

Lemma get_Some_elem_of d k v : get d k = Some v → (k, v) ∈ d.
Proof.
  induction d as [|[k' v'] d IH]; [done|]. rewrite get_cons.
  case_decide; [intros ?; simplify_eq; left|right; auto].
Qed.

Lemma get_None d k : get d k = None ↔ k ∉ keys d.
Proof.
  unfold keys. induction d as [|[k' v'] d IH]; simpl.
  - split; [intros _ ?%elem_of_nil; done|done].
  - rewrite get_cons, not_elem_of_cons. case_decide.
    + split; [done|]. intros [? _]. congruence.
    + rewrite IH. split; [by split|by intros [_ ?]].
Qed.

Lemma elem_of_get d k v : NoDup (keys d) → (k, v) ∈ d → get d k = Some v.
Proof.
  unfold keys. induction d as [|[k' v'] d IH]; [by intros _ ?%elem_of_nil|].
  rewrite fmap_cons, NoDup_cons, get_cons, elem_of_cons. simpl.
  intros [Hk' Hd] [[= -> ->]|Hin].
  - by rewrite decide_True.
  - rewrite decide_False; [auto|]. intros ->. apply Hk'.
    apply list_elem_of_fmap. by exists (k, v).
Qed.
End dict.

(** ** The comprehensions over [group_terms] *)

Section items.
Context (keep : string → gset string → bool).
Implicit Types gt : dict (gset string).

Lemma elem_of_items_where gt g ts :
  (g, ts) ∈ items_where keep gt ↔ get gt g = Some ts ∧ keep g ts = true.
Proof.
  unfold items_where. rewrite list_elem_of_omap. split.
  - intros (g' & _ & Hg'). destruct (get gt g') as [ts'|] eqn:Hget; [|done].
    destruct (keep g' ts') eqn:Hk; by simplify_eq.
  - intros [Hget Hk]. exists g. split.
    + apply get_Some_elem_of in Hget. apply list_elem_of_fmap. by exists (g, ts).
    + by rewrite Hget, Hk.
Qed.

Lemma omap_items_filter gt (l : list (string * gset string)) :
  (∀ kv, kv ∈ l → get gt kv.1 = Some kv.2) →
  omap (λ group,
          match get gt group with
          | Some terms =>
              if keep group terms then Some (group, terms) else None
          | None => None
          end) l.*1
  = filter (λ kv, keep kv.1 kv.2 = true) l.
Proof.
  induction l as [|[k v] l IH]; intros Hget; [done|].
  rewrite fmap_cons, filter_cons. simpl.
  pose proof (Hget (k, v) ltac:(left)) as Hk. simpl in Hk. rewrite Hk.
  fold (@omap list _ string (string * gset string)).
  rewrite IH by (intros; apply Hget; by right).
  destruct (keep k v); [by rewrite decide_True|by rewrite decide_False].
Qed.

(** In a dictionary, whose keys are distinct, the comprehension filters
    the items. *)
Lemma items_where_filter gt :
  NoDup (keys gt) →
  items_where keep gt = filter (λ kv, keep kv.1 kv.2 = true) gt.
Proof.
  intros Hnd. apply omap_items_filter.
  intros [k v] ?. by apply elem_of_get.
Qed.
End items.

(** ** [build_query] *)

Section build_query.
Context (o : set_order) (gl : gmap string logic).
Implicit Types gt : dict (gset string).

(** The loop of [build_query] over the enumerated items, from the index
    [k] on, [n] being the number of all items. *)
Lemma build_query_loop (n k : nat) (items : list (string * gset string)) :
  n = k + length items →
  mapM (λ '(i, (group, terms)),
      lg ← logic_of gl group;
      quote ← field "quote" (quote lg);
      let internal_op := get_internal_operator lg in
      let group_str := format_group o terms quote internal_op in
      if bool_decide (i < n - 1) then
        outer_op ← field "operator" (operator lg);
        mret (group_str +:+ " " +:+ outer_op)
      else mret group_str) (imap (λ i a, (k + i, a)) items)
  = parts_of o gl items.
Proof.
  revert k. induction items as [|[g ts] rest IH]; intros k Hn; [done|].
  rewrite imap_cons, mapM_cons_result.
  rewrite (imap_ext _ (λ i a, (S k + i, a))) by (intros; simpl; f_equal; lia).
  rewrite IH by (simpl in Hn; lia).
  simpl in Hn. simpl parts_of. f_equal.
  destruct rest as [|kv rest].
  - rewrite bool_decide_eq_false_2 by (simpl in Hn; lia). done.
  - rewrite bool_decide_eq_true_2 by (simpl in Hn; lia). done.
Qed.

Lemma build_query_parts gt :
  build_query o gt gl =
    parts ← parts_of o gl (items_where (λ _ terms, nonempty terms) gt);
    mret (join " " parts).
Proof.
  unfold build_query, enumerate.
  by rewrite (build_query_loop _ 0) by done.
Qed.

Lemma clause_Raise kv e : clause o gl kv = Raise e → ∃ k, e = KeyError k.
Proof.
  unfold clause, logic_of, field.
  destruct (gl !! kv.1) as [[[q|] op iop]|]; simpl; intros; simplify_eq; eauto.
Qed.

Lemma clause_op_Raise kv e :
  clause_op o gl kv = Raise e → ∃ k, e = KeyError k.
Proof.
  unfold clause_op, logic_of, field.
  destruct (gl !! kv.1) as [[[q|] [op|] iop]|]; simpl; intros;
    simplify_eq; eauto.
Qed.

Lemma clause_no_logic kv : gl !! kv.1 = None → clause o gl kv = Raise (KeyError kv.1).
Proof. unfold clause, logic_of. by intros ->. Qed.

Lemma clause_op_no_logic kv :
  gl !! kv.1 = None → clause_op o gl kv = Raise (KeyError kv.1).
Proof. unfold clause_op, logic_of. by intros ->. Qed.

Lemma clause_Ok kv lg q :
  gl !! kv.1 = Some lg → quote lg = Some q →
  clause o gl kv = Ok (format_group o kv.2 q (get_internal_operator lg)).
Proof.
  intros Hl Hq. unfold clause, logic_of. by rewrite Hl, bind_Ok, Hq.
Qed.

Lemma clause_op_Ok kv c :
  clause_op o gl kv = Ok c ↔
  ∃ lg q op,
    gl !! kv.1 = Some lg ∧ quote lg = Some q ∧ operator lg = Some op
    ∧ c = format_group o kv.2 q (get_internal_operator lg) +:+ " " +:+ op.
Proof.
  unfold clause_op, logic_of, field. split.
  - destruct (gl !! kv.1) as [[[q|] [op|] iop]|]; simpl; intros H;
      try discriminate H.
    unfold mret, result_ret in H. injection H as <-. by eexists _, _, _.
  - intros (lg & q & op & Hl & Hq & Hop & ->).
    by rewrite Hl, bind_Ok, Hq, bind_Ok, Hop.
Qed.

(** The loop raises a [KeyError] as soon as one of the groups it visits has
    no entry in the logic mapping. *)
Lemma parts_of_no_logic items kv :
  kv ∈ items → gl !! kv.1 = None →
  ∃ k, parts_of o gl items = Raise (KeyError k).
Proof.
  induction items as [|kv' rest IH]; [by intros ?%elem_of_nil|].
  intros Hin Hgl. simpl.
  set (p := match rest with [] => clause o gl kv' | _ => clause_op o gl kv' end).
  destruct p as [c|e] eqn:Hp.
  - rewrite bind_Ok. apply elem_of_cons in Hin as [->|Hin].
    + subst p. destruct rest;
        [rewrite clause_no_logic in Hp|rewrite clause_op_no_logic in Hp]; done.
    + destruct (IH Hin Hgl) as [k ->]. by exists k.
  - rewrite bind_Raise. subst p.
    destruct rest; [apply clause_Raise in Hp|apply clause_op_Raise in Hp];
      destruct Hp as [k ->]; by exists k.
Qed.
End build_query.

(** C1: when a group of the terms mapping that has terms has no entry in
    the logic mapping, [build_query] raises a [KeyError] (the
    specification's [ConfigurationError]); it raises instead of returning,
    so no query string comes back, not even a partial one. *)
Theorem build_query_missing_logic (o : set_order) (gt : dict (gset string))
    (gl : gmap string logic) (g : string) (ts : gset string) :
  get gt g = Some ts → ts ≠ ∅ → gl !! g = None →
  (∃ k, build_query o gt gl = Raise (KeyError k))
  ∧ ∀ q, build_query o gt gl ≠ Ok q.
Proof.
  intros Hget Hts Hgl.
  assert (∃ k, build_query o gt gl = Raise (KeyError k)) as [k Hk].
  { rewrite build_query_parts.
    destruct (parts_of_no_logic o gl
                (items_where (λ _ terms, nonempty terms) gt) (g, ts))
      as [k ->]; [|done|by exists k].
    apply elem_of_items_where. split; [done|]. by apply bool_decide_eq_true_2. }
  split; [by exists k|]. intros q. by rewrite Hk.
Qed.

Lemma build_query_missing_logic_witness :
  (∃ k, build_query elements_order colour_terms
          {[ "color" := Logic (Some false) (Some "AND") None ]}
        = Raise (KeyError k))
  ∧ ∀ q, build_query elements_order colour_terms
           {[ "color" := Logic (Some false) (Some "AND") None ]} ≠ Ok q.
Proof.
  apply (build_query_missing_logic elements_order colour_terms
           {[ "color" := Logic (Some false) (Some "AND") None ]}
           "size" {[ "large" ]}).
  - reflexivity.
  - vm_compute. discriminate.
  - reflexivity.
Defined.

(** The iteration order of the sets does not reach the result. *)
Lemma clause_order_irrelevant (o o' : set_order) gl kv :
  clause o gl kv = clause o' gl kv.
Proof.
  unfold clause. destruct (logic_of gl kv.1) as [lg|]; [|done].
  rewrite !bind_Ok. destruct (field "quote" (quote lg)) as [q|]; [|done].
  by rewrite !bind_Ok, (format_group_order_irrelevant o o').
Qed.

Lemma clause_op_order_irrelevant (o o' : set_order) gl kv :
  clause_op o gl kv = clause_op o' gl kv.
Proof.
  unfold clause_op. destruct (logic_of gl kv.1) as [lg|]; [|done].
  rewrite !bind_Ok. destruct (field "quote" (quote lg)) as [q|]; [|done].
  rewrite !bind_Ok. destruct (field "operator" (operator lg)) as [op|]; [|done].
  by rewrite !bind_Ok, (format_group_order_irrelevant o o').
Qed.

Lemma parts_of_order_irrelevant (o o' : set_order) gl items :
  parts_of o gl items = parts_of o' gl items.
Proof.
  induction items as [|kv rest IH]; [done|]. simpl. rewrite IH.
  by rewrite (clause_order_irrelevant o o'), (clause_op_order_irrelevant o o').
Qed.

Lemma build_query_order_irrelevant (o o' : set_order) gt gl :
  build_query o gt gl = build_query o' gt gl.
Proof.
  by rewrite !build_query_parts, (parts_of_order_irrelevant o o').
Qed.

(** C9: two invocations with the same arguments return the same string (or
    raise the same exception), whatever the order [o1] in which the sets
    hand out their terms during the first and the order [o2] during the
    second; for [format_group] and for [build_query]. *)
Theorem repeated_invocations_agree (o1 o2 : set_order) :
  (∀ terms quote op,
     format_group o1 terms quote op = format_group o2 terms quote op)
  ∧ (∀ gt gl, build_query o1 gt gl = build_query o2 gt gl).
Proof.
  split.
  - intros. apply format_group_order_irrelevant.
  - intros. apply build_query_order_irrelevant.
Qed.

(** C5, refuted as stated: the clause of the group ["size"] comes between
    parentheses like every clause [format_group] prints, so the result is
    not the string of the claim. *)
Lemma build_query_colours_counterexample :
  build_query elements_order colour_terms colour_logic
  ≠ Ok ("(blue OR red) AND " +:+ quoted "large").
Proof. vm_compute. discriminate. Qed.

(** C5, amended: for the terms and the logic of the scenario [build_query]
    returns the clause of ["color"], its operator and the clause of
    ["size"], the quoted term between parentheses. *)
Theorem build_query_colours (o : set_order) :
  build_query o colour_terms colour_logic
  = Ok ("(blue OR red) AND (" +:+ quoted "large" +:+ ")").
Proof. rewrite (build_query_order_irrelevant o elements_order). reflexivity. Qed.

(** ** Groups without terms *)

Lemma filter_ext_elem {A} (P Q : A → Prop) `{∀ x, Decision (P x)}
    `{∀ x, Decision (Q x)} (l : list A) :
  (∀ x, x ∈ l → P x ↔ Q x) → filter P l = filter Q l.
Proof.
  induction l as [|x l IH]; intros HPQ; [done|].
  rewrite !filter_cons, IH by (intros; apply HPQ; by right).
  apply decide_ext, HPQ. by left.
Qed.

Lemma NoDup_keys_filter {V} (P : string * V → Prop) `{∀ x, Decision (P x)}
    (d : dict V) :
  NoDup (keys d) → NoDup (keys (filter P d)).
Proof.
  unfold keys. intros Hnd. eapply sublist_NoDup; [done|].
  apply fmap_sublist, sublist_filter.
Qed.

Lemma group_items_nonempty_groups (gt : dict (gset string)) :
  NoDup (keys gt) →
  items_where (λ _ terms, nonempty terms) gt = nonempty_groups gt.
Proof.
  intros Hnd. rewrite items_where_filter by done.
  apply list_filter_iff. intros [g ts]. unfold nonempty.
  by rewrite bool_decide_eq_true.
Qed.

Lemma nonempty_groups_without (gt : dict (gset string)) g :
  NoDup (keys gt) → (g, ∅) ∈ gt →
  nonempty_groups (without g gt) = nonempty_groups gt.
Proof.
  intros Hnd Hg. unfold nonempty_groups, without.
  rewrite list_filter_filter. apply filter_ext_elem.
  intros [k ts] Hk. simpl. split; [by intros [? _]|]. intros Hts.
  split; [done|]. intros ->.
  apply (elem_of_get _ _ _ Hnd) in Hk, Hg. congruence.
Qed.

(** C7: a group without terms adds nothing to the result of [build_query],
    which is the result for the mapping without that group.  When one
    group has terms, the result is the clause of that group, formatted
    with its settings, and no operator (and the [KeyError] of the failed
    lookup when the group has no settings); when none has, it is the empty
    string. *)
Theorem empty_groups_skipped (o : set_order) (gt : dict (gset string))
    (gl : gmap string logic) :
  NoDup (keys gt) →
  (∀ g, (g, ∅) ∈ gt → build_query o gt gl = build_query o (without g gt) gl)
  ∧ (∀ g ts,
       nonempty_groups gt = [(g, ts)] →
       build_query o gt gl = clause o gl (g, ts)
       ∧ ∀ lg q,
           gl !! g = Some lg → quote lg = Some q →
           build_query o gt gl
           = Ok (format_group o ts q (get_internal_operator lg)))
  ∧ (nonempty_groups gt = [] → build_query o gt gl = Ok "").
Proof.
  intros Hnd. split_and!.
  - intros g Hg. rewrite !build_query_parts.
    rewrite !group_items_nonempty_groups by (done || by apply NoDup_keys_filter).
    by rewrite nonempty_groups_without.
  - intros g ts Hone.
    assert (build_query o gt gl = clause o gl (g, ts)) as ->.
    { rewrite build_query_parts, group_items_nonempty_groups, Hone by done.
      simpl. by destruct (clause o gl (g, ts)). }
    split; [done|]. intros lg q Hlg Hq. by apply (clause_Ok _ _ (g, ts)).
  - intros Hnone. rewrite build_query_parts.
    by rewrite group_items_nonempty_groups, Hnone.
Qed.

Lemma empty_groups_skipped_witness :
  (∀ g, (g, ∅) ∈ sparse_terms →
     build_query elements_order sparse_terms colour_logic
     = build_query elements_order (without g sparse_terms) colour_logic)
  ∧ (∀ g ts,
       nonempty_groups sparse_terms = [(g, ts)] →
       build_query elements_order sparse_terms colour_logic
       = clause elements_order colour_logic (g, ts)
       ∧ ∀ lg q,
           colour_logic !! g = Some lg → quote lg = Some q →
           build_query elements_order sparse_terms colour_logic
           = Ok (format_group elements_order ts q (get_internal_operator lg)))
  ∧ (nonempty_groups sparse_terms = [] →
     build_query elements_order sparse_terms colour_logic = Ok "").
Proof.
  apply (empty_groups_skipped elements_order sparse_terms colour_logic).
  compute_done.
Defined.

(** ** [build_queries_by_main_group] *)

Lemma mapM_total {A B} (f : A → result B) l :
  (∀ x, x ∈ l → ∃ y, f x = Ok y) → ∃ k, mapM f l = Ok k.
Proof.
  induction l as [|x l IH]; intros Hf; [by exists []|].
  destruct (Hf x) as [y Hy]; [by left|].
  destruct IH as [k Hk]; [intros; apply Hf; by right|].
  exists (y :: k). by rewrite mapM_cons_result, Hy, Hk.
Qed.

Lemma Forall2_elem_of_r {A B} (P : A → B → Prop) l k y :
  Forall2 P l k → y ∈ k → ∃ x, x ∈ l ∧ P x y.
Proof.
  induction 1 as [|x y' l k HP _ IH]; [by intros ?%elem_of_nil|].
  intros [->|Hy]%elem_of_cons.
  - exists x. split; [by left|done].
  - destruct (IH Hy) as (x' & ? & ?). exists x'. split; [by right|done].
Qed.

Lemma join_cons sep x l : l ≠ [] → join sep (x :: l) = x +:+ sep +:+ join sep l.
Proof. by destruct l. Qed.

(** Joining the parts "clause, space, operator" by spaces is joining the
    clauses and the operators by spaces. *)
Lemma join_clauses (cls : list (string * string)) (last : string) :
  join " " (((λ c, c.1 +:+ " " +:+ c.2) <$> cls) ++ [last])
  = join " " (flat_map (λ c, [c.1; c.2]) cls ++ [last]).
Proof.
  induction cls as [|[c op] cls IH]; [done|].
  rewrite fmap_cons. simpl flat_map. rewrite <-!app_comm_cons.
  rewrite !join_cons by (try apply not_eq_sym, app_cons_not_nil; done).
  simpl. by rewrite IH, !append_assoc.
Qed.

Section main_group.
Context (o : set_order) (gl : gmap string logic).
Implicit Types gt : dict (gset string).

Lemma build_queries_unfold gt mg main_terms :
  get gt mg = Some main_terms →
  build_queries_by_main_group o gt gl mg =
    mapM (query_for o gl mg
            (items_where
               (λ g terms, bool_decide (g ≠ mg) && nonempty terms) gt))
      (sorted o main_terms).
Proof.
  intros Hget. unfold build_queries_by_main_group, getitem.
  rewrite bool_decide_eq_false_2, Hget, bind_Ok.
  - apply mapM_ext. intros val _. unfold query_for, enumerate.
    rewrite <-(mapM_imap_ignore (clause_op o gl) id).
    erewrite (mapM_ext _ (λ '(i, a), clause_op o gl a))
      by (by intros [i [g ts]] _).
    destruct (mapM _ _) as [ps|e]; [|done]. rewrite !bind_Ok.
    unfold clause. destruct (logic_of gl _) as [lg|]; [|done].
    rewrite !bind_Ok. by destruct (field "quote" (quote lg)).
  - intros Hnot. apply (get_None gt mg) in Hnot. congruence.
Qed.

Lemma clause_Ok_inv kv c :
  clause o gl kv = Ok c →
  ∃ lg q, gl !! kv.1 = Some lg ∧ quote lg = Some q
          ∧ c = format_group o kv.2 q (get_internal_operator lg).
Proof.
  unfold clause, logic_of, field.
  destruct (gl !! kv.1) as [[[q|] op iop]|]; simpl; intros H;
    try discriminate H.
  unfold mret, result_ret in H. injection H as <-. by eexists _, _.
Qed.

Lemma static_parts_clauses static ps :
  mapM (clause_op o gl) static = Ok ps →
  ∃ cls, Forall2 (static_clause o gl) static cls
         ∧ ps = (λ c, c.1 +:+ " " +:+ c.2) <$> cls.
Proof.
  intros Hps%mapM_Ok. induction Hps as [|kv p static ps Hp _ IH].
  - by exists [].
  - destruct IH as (cls & Hcls & ->).
    apply clause_op_Ok in Hp as (lg & q & op & Hlg & Hq & Hop & ->).
    exists ((format_group o kv.2 q (get_internal_operator lg), op) :: cls).
    split; [|done]. constructor; [|done]. by exists lg, q.
Qed.

Lemma static_items gt mg :
  NoDup (keys gt) →
  items_where (λ g terms, bool_decide (g ≠ mg) && nonempty terms) gt
  = static_groups gt mg.
Proof.
  intros Hnd. rewrite items_where_filter by done.
  apply list_filter_iff. intros [g ts]. unfold nonempty. simpl.
  by rewrite andb_true_iff, !bool_decide_eq_true.
Qed.

Lemma static_items_elem_of gt mg kv :
  kv ∈ items_where (λ g terms, bool_decide (g ≠ mg) && nonempty terms) gt →
  kv ∈ static_groups gt mg.
Proof.
  destruct kv as [g ts]. intros [Hget Hk]%elem_of_items_where.
  apply andb_true_iff in Hk as [Hg%bool_decide_eq_true Hts%bool_decide_eq_true].
  apply list_elem_of_filter. split; [done|]. by apply get_Some_elem_of.
Qed.
End main_group.

(** C8: with a main group that is not a key of the terms mapping,
    [build_queries_by_main_group] raises a [ValueError] (the
    specification's [InvalidMainGroupError]) whose message holds the
    name. *)
Theorem unknown_main_group (o : set_order) (gt : dict (gset string))
    (gl : gmap string logic) (mg : string) :
  mg ∉ keys gt →
  build_queries_by_main_group o gt gl mg
  = Raise (ValueError
             ("Main group '" +:+ mg +:+ "' not found in group terms.")).
Proof.
  intros Hmg. unfold build_queries_by_main_group.
  by rewrite bool_decide_eq_true_2.
Qed.

Lemma unknown_main_group_witness :
  build_queries_by_main_group elements_order colour_terms colour_logic "shape"
  = Raise (ValueError
             ("Main group '" +:+ "shape" +:+ "' not found in group terms.")).
Proof.
  apply (unknown_main_group elements_order colour_terms colour_logic "shape").
  compute_done.
Defined.

(** C10: when the main group has no terms, [build_queries_by_main_group]
    returns the empty list and the logic mapping plays no part: the result
    is the same for every logic mapping, the empty one included. *)
Theorem empty_main_group (o : set_order) (gt : dict (gset string))
    (gl : gmap string logic) (mg : string) :
  get gt mg = Some ∅ →
  build_queries_by_main_group o gt gl mg = Ok []
  ∧ build_queries_by_main_group o gt ∅ mg = Ok [].
Proof.
  intros Hget. by rewrite !(build_queries_unfold _ _ _ _ ∅), sorted_empty.
Qed.

Lemma empty_main_group_witness :
  build_queries_by_main_group elements_order sparse_terms
    {[ "shape" := Logic None None None ]} "size" = Ok []
  ∧ build_queries_by_main_group elements_order sparse_terms ∅ "size" = Ok [].
Proof.
  apply (empty_main_group elements_order sparse_terms
           {[ "shape" := Logic None None None ]} "size").
  reflexivity.
Defined.

(** C4, refuted as stated: the main group ["fruit"] is a key of the terms
    mapping and has two terms, but with a logic mapping that has no entry
    for it the call raises instead of returning a pair per term. *)
Lemma one_query_per_main_value_counterexample :
  get fruit_terms "fruit" = Some {[ "apple"; "banana" ]}
  ∧ build_queries_by_main_group elements_order fruit_terms ∅ "fruit"
    = Raise (KeyError "fruit").
Proof. split; reflexivity. Qed.

Lemma has_quote_operator_clause_op (o : set_order) gl kv :
  has_quote_operator gl kv.1 = true → ∃ c, clause_op o gl kv = Ok c.
Proof.
  unfold has_quote_operator. destruct (gl !! kv.1) as [lg|] eqn:Hlg; [|done].
  intros [[q Hq]%bool_decide_eq_true [op Hop]%bool_decide_eq_true]%andb_true_iff.
  eexists. apply clause_op_Ok. by exists lg, q, op.
Qed.

Lemma has_quote_clause (o : set_order) gl kv :
  has_quote gl kv.1 = true → ∃ c, clause o gl kv = Ok c.
Proof.
  unfold has_quote. destruct (gl !! kv.1) as [lg|] eqn:Hlg; [|done].
  intros [q Hq]%bool_decide_eq_true. eexists. by apply (clause_Ok _ _ _ lg q).
Qed.

(** With a complete logic mapping every value gets its query. *)
Lemma query_for_total (o : set_order) gt gl mg val :
  logic_complete gt gl mg = true →
  ∃ q, query_for o gl mg
         (items_where (λ g terms, bool_decide (g ≠ mg) && nonempty terms) gt)
         val
       = Ok (val, q).
Proof.
  intros [Hmain Hstatic]%andb_true_iff. unfold query_for.
  destruct (mapM_total (clause_op o gl)
              (items_where
                 (λ g terms, bool_decide (g ≠ mg) && nonempty terms) gt))
    as [ps ->].
  { intros kv Hkv%static_items_elem_of. apply has_quote_operator_clause_op.
    rewrite forallb_forall in Hstatic. by apply Hstatic, list_elem_of_In. }
  destruct (has_quote_clause o gl (mg, {[ val ]}) Hmain) as [c ->].
  by eexists.
Qed.

(** C4, amended: for a main group that is a key of the terms mapping, and a
    logic mapping that, unless the main group has no terms, holds
    ["quote"] for the main group and ["quote"] and ["operator"] for every
    other group with terms, [build_queries_by_main_group] returns one
    pair per term of the main group, the terms in ascending order; no pair
    and no exception when the main group has no terms. *)
Theorem one_query_per_main_value (o : set_order) (gt : dict (gset string))
    (gl : gmap string logic) (mg : string) (main_terms : gset string) :
  get gt mg = Some main_terms →
  (main_terms ≠ ∅ → logic_complete gt gl mg = true) →
  ∃ qs,
    build_queries_by_main_group o gt gl mg = Ok qs
    ∧ qs.*1 ≡ₚ elements main_terms
    ∧ StronglySorted String.le qs.*1
    ∧ NoDup qs.*1
    ∧ length qs = size main_terms
    ∧ (main_terms = ∅ → qs = []).
Proof.
  intros Hget Hlogic. rewrite (build_queries_unfold _ _ _ _ main_terms) by done.
  set (static := items_where _ gt).
  assert (∃ qs, mapM (query_for o gl mg static) (sorted o main_terms) = Ok qs
                ∧ qs.*1 = sorted o main_terms) as (qs & -> & Hfst).
  { destruct (decide (main_terms = ∅)) as [->|Hne].
    - exists []. by rewrite sorted_empty.
    - specialize (Hlogic Hne).
      exists ((λ val,
                 (val, match query_for o gl mg static val with
                       | Ok vq => vq.2
                       | Raise _ => ""
                       end)) <$> sorted o main_terms).
      split.
      + apply mapM_Ok_fmap. intros val _.
        destruct (query_for_total o gt gl mg val Hlogic) as [q Hq].
        fold static in Hq. by rewrite Hq.
      + rewrite <-list_fmap_compose. apply list_fmap_id. }
  exists qs. split; [done|]. rewrite Hfst. split_and!.
  - apply sorted_perm.
  - apply sorted_sorted.
  - apply sorted_NoDup.
  - by rewrite <-(length_fmap fst), Hfst, length_sorted.
  - intros ->. rewrite sorted_empty in Hfst. by apply fmap_nil_inv in Hfst.
Qed.

Lemma one_query_per_main_value_witness :
  ∃ qs,
    build_queries_by_main_group elements_order colour_terms colour_logic
      "color" = Ok qs
    ∧ qs.*1 ≡ₚ elements ({[ "red"; "blue" ]} : gset string)
    ∧ StronglySorted String.le qs.*1
    ∧ NoDup qs.*1
    ∧ length qs = size ({[ "red"; "blue" ]} : gset string)
    ∧ (({[ "red"; "blue" ]} : gset string) = ∅ → qs = []).
Proof.
  apply (one_query_per_main_value elements_order colour_terms colour_logic
           "color" {[ "red"; "blue" ]}).
  - reflexivity.
  - intros _. reflexivity.
Defined.

(** C3: each pair [(v, q)] that [build_queries_by_main_group] returns is
    for a term [v] of the main group, and [q] is, joined by single spaces:
    for every other group with terms, in the order of the mapping, the
    clause of the group formatted with its settings and then its
    operator; and last the clause of the set that holds [v] alone,
    formatted with the settings of the main group, without an operator. *)
Theorem main_group_query_shape (o : set_order) (gt : dict (gset string))
    (gl : gmap string logic) (mg : string) (main_terms : gset string)
    (qs : list (string * string)) (v q : string) :
  NoDup (keys gt) →
  get gt mg = Some main_terms →
  build_queries_by_main_group o gt gl mg = Ok qs →
  (v, q) ∈ qs →
  v ∈ main_terms
  ∧ ∃ lg mq cls,
      gl !! mg = Some lg ∧ quote lg = Some mq
      ∧ Forall2 (static_clause o gl) (static_groups gt mg) cls
      ∧ q = join " "
              (flat_map (λ c, [c.1; c.2]) cls
               ++ [format_group o {[ v ]} mq (get_internal_operator lg)]).
Proof.
  intros Hnd Hget Hqs Hvq.
  rewrite (build_queries_unfold _ _ _ _ main_terms), static_items in Hqs by done.
  apply mapM_Ok in Hqs.
  destruct (Forall2_elem_of_r _ _ _ _ Hqs Hvq) as (val & Hval & Hq).
  unfold query_for in Hq.
  destruct (mapM (clause_op o gl) (static_groups gt mg)) as [ps|] eqn:Hps;
    [|done].
  rewrite bind_Ok in Hq.
  destruct (clause o gl (mg, {[ val ]})) as [c|] eqn:Hc; [|done].
  rewrite bind_Ok in Hq. unfold mret, result_ret in Hq.
  injection Hq as -> <-.
  apply static_parts_clauses in Hps as (cls & Hcls & ->).
  apply clause_Ok_inv in Hc as (lg & mq & Hlg & Hmq & ->).
  split; [by apply (elem_of_sorted o)|].
  exists lg, mq, cls. split_and!; [done..|]. apply join_clauses.
Qed.

Lemma main_group_query_shape_witness :
  "blue" ∈ ({[ "red"; "blue" ]} : gset string)
  ∧ ∃ lg mq cls,
      colour_logic !! "color" = Some lg ∧ quote lg = Some mq
      ∧ Forall2 (static_clause elements_order colour_logic)
          (static_groups colour_terms "color") cls
      ∧ "(" +:+ quoted "large" +:+ ") AND (blue)"
        = join " "
            (flat_map (λ c, [c.1; c.2]) cls
             ++ [format_group elements_order {[ "blue" ]} mq
                   (get_internal_operator lg)]).
Proof.
  apply (main_group_query_shape elements_order colour_terms colour_logic
           "color" {[ "red"; "blue" ]}
           [("blue", "(" +:+ quoted "large" +:+ ") AND (blue)");
            ("red", "(" +:+ quoted "large" +:+ ") AND (red)")]).
  - compute_done.
  - reflexivity.
  - reflexivity.
  - left.
Defined.

(** ** The remaining scenarios of the specification *)

Lemma build_queries_order_irrelevant (o o' : set_order) gt gl mg :
  build_queries_by_main_group o gt gl mg
  = build_queries_by_main_group o' gt gl mg.
Proof.
  destruct (get gt mg) as [main_terms|] eqn:Hget.
  - rewrite !(build_queries_unfold _ _ _ _ main_terms) by done.
    rewrite (sorted_order_irrelevant o o'). apply mapM_ext. intros val _.
    unfold query_for.
    rewrite (mapM_ext (clause_op o gl) (clause_op o' gl))
      by (intros; apply clause_op_order_irrelevant).
    by rewrite (clause_order_irrelevant o o').
  - apply get_None in Hget. unfold build_queries_by_main_group.
    by rewrite !bool_decide_eq_true_2.
Qed.

(** One query per fruit, each the clause of the fruit alone. *)
Example fruit_queries (o : set_order) :
  build_queries_by_main_group o fruit_terms fruit_logic "fruit"
  = Ok [("apple", "(apple)"); ("banana", "(banana)")].
Proof.
  rewrite (build_queries_order_irrelevant o elements_order). reflexivity.
Qed.

(** A term with a space is quoted without being asked to. *)
Example clean_term_new_york : clean_term "New York" false = quoted "New York".
Proof. reflexivity. Qed.

(** The sets enumerated backwards give the same combined query. *)
Example build_query_reverse_order :
  build_query reverse_order colour_terms colour_logic
  = Ok ("(blue OR red) AND (" +:+ quoted "large" +:+ ")").
Proof. reflexivity. Qed.

(** * Beyond the claims

    ** The combined query in general *)

Lemma mapM_Raise_inv {A B} (f : A → result B) l e :
  mapM f l = Raise e → ∃ x, x ∈ l ∧ f x = Raise e.
Proof.
  induction l as [|x l IH]; [done|]. rewrite mapM_cons_result.
  destruct (f x) as [y|e'] eqn:Hx.
  - rewrite bind_Ok. destruct (mapM f l) as [k|e'] eqn:Hl; [done|].
    rewrite bind_Raise. intros [= ->].
    destruct (IH eq_refl) as (z & ? & ?). exists z. split; [by right|done].
  - rewrite bind_Raise. intros [= ->]. exists x. split; [by left|done].
Qed.

Section combined.
Context (o : set_order) (gl : gmap string logic).
Implicit Types gt : dict (gset string).

(** The loop of [build_query] treats the last group apart: the groups
    before it give their clause and operator, the last its clause. *)
Lemma parts_of_cons_more kv rest :
  rest ≠ [] →
  parts_of o gl (kv :: rest) =
    p ← clause_op o gl kv; ps ← parts_of o gl rest; mret (p :: ps).
Proof. by destruct rest. Qed.

Lemma parts_of_snoc init lastg :
  parts_of o gl (init ++ [lastg]) =
    ps ← mapM (clause_op o gl) init;
    c ← clause o gl lastg;
    mret (ps ++ [c]).
Proof.
  induction init as [|kv init IH].
  - simpl. by destruct (clause o gl lastg).
  - rewrite <-app_comm_cons, parts_of_cons_more, IH, mapM_cons_result
      by (apply not_eq_sym, app_cons_not_nil).
    destruct (clause_op o gl kv) as [c0|]; [|done]. rewrite !bind_Ok.
    destruct (mapM _ _) as [ps|]; [|done]. rewrite !bind_Ok.
    by destruct (clause o gl lastg).
Qed.

Lemma clause_op_has_quote_operator kv c :
  clause_op o gl kv = Ok c → has_quote_operator gl kv.1 = true.
Proof.
  intros (lg & q & op & Hlg & Hq & Hop & _)%clause_op_Ok.
  unfold has_quote_operator. rewrite Hlg, Hq, Hop.
  by rewrite !bool_decide_eq_true_2.
Qed.

Lemma clause_has_quote kv c : clause o gl kv = Ok c → has_quote gl kv.1 = true.
Proof.
  intros (lg & q & Hlg & Hq & _)%clause_Ok_inv.
  unfold has_quote. rewrite Hlg, Hq. by rewrite bool_decide_eq_true_2.
Qed.

Lemma static_parts_Ok_iff static :
  (∃ ps, mapM (clause_op o gl) static = Ok ps)
  ↔ forallb (λ kv, has_quote_operator gl kv.1) static = true.
Proof.
  rewrite forallb_forall. split.
  - intros [ps Hps%mapM_Ok] kv Hkv%list_elem_of_In.
    induction Hps as [|kv' p static ps Hp _ IH]; [by apply elem_of_nil in Hkv|].
    apply elem_of_cons in Hkv as [->|Hkv]; [|by apply IH].
    by eapply clause_op_has_quote_operator.
  - intros Hall. apply mapM_total. intros kv Hkv%list_elem_of_In.
    by apply has_quote_operator_clause_op, Hall.
Qed.

Lemma parts_of_Raise items e :
  parts_of o gl items = Raise e → ∃ k, e = KeyError k.
Proof.
  induction items as [|kv rest IH]; [done|]. simpl.
  set (p := match rest with [] => clause o gl kv | _ => clause_op o gl kv end).
  destruct p as [c|e'] eqn:Hp.
  - rewrite bind_Ok. destruct (parts_of o gl rest) as [ps|e'']; [done|].
    rewrite bind_Raise. intros [= ->]. by apply IH.
  - rewrite bind_Raise. intros [= ->]. subst p.
    destruct rest; [by eapply clause_Raise|by eapply clause_op_Raise].
Qed.

Lemma build_query_snoc gt init lastg :
  NoDup (keys gt) → nonempty_groups gt = init ++ [lastg] →
  build_query o gt gl =
    ps ← mapM (clause_op o gl) init;
    c ← clause o gl lastg;
    mret (join " " (ps ++ [c])).
Proof.
  intros Hnd Hgroups.
  rewrite build_query_parts, group_items_nonempty_groups, Hgroups by done.
  rewrite parts_of_snoc. destruct (mapM _ _) as [ps|]; [|done].
  rewrite !bind_Ok. by destruct (clause o gl lastg).
Qed.
End combined.

(** X1: the string [build_query] returns is, joined by single spaces: for
    every group with terms but the last, in the order of the mapping, the
    clause of the group and then its operator; and the clause of the last
    group with terms, without an operator. *)
Theorem build_query_shape (o : set_order) (gt : dict (gset string))
    (gl : gmap string logic) (init : list (string * gset string))
    (lastg : string * gset string) (q : string) :
  NoDup (keys gt) →
  nonempty_groups gt = init ++ [lastg] →
  build_query o gt gl = Ok q →
  ∃ cls lg ql,
    Forall2 (static_clause o gl) init cls
    ∧ gl !! lastg.1 = Some lg ∧ quote lg = Some ql
    ∧ q = join " "
            (flat_map (λ c, [c.1; c.2]) cls
             ++ [format_group o lastg.2 ql (get_internal_operator lg)]).
Proof.
  intros Hnd Hgroups. rewrite (build_query_snoc o gl gt init lastg) by done.
  destruct (mapM (clause_op o gl) init) as [ps|] eqn:Hps; [|done].
  rewrite bind_Ok. destruct (clause o gl lastg) as [c|] eqn:Hc; [|done].
  rewrite bind_Ok. unfold mret, result_ret. intros [= <-].
  apply static_parts_clauses in Hps as (cls & Hcls & ->).
  apply clause_Ok_inv in Hc as (lg & ql & Hlg & Hql & ->).
  exists cls, lg, ql. split_and!; [done..|]. apply join_clauses.
Qed.

Lemma build_query_shape_witness :
  ∃ cls lg ql,
    Forall2 (static_clause elements_order colour_logic)
      [("color", {[ "red"; "blue" ]})] cls
    ∧ colour_logic !! ("size", ({[ "large" ]} : gset string)).1 = Some lg
    ∧ quote lg = Some ql
    ∧ "(blue OR red) AND (" +:+ quoted "large" +:+ ")"
      = join " "
          (flat_map (λ c, [c.1; c.2]) cls
           ++ [format_group elements_order
                 ("size", ({[ "large" ]} : gset string)).2 ql
                 (get_internal_operator lg)]).
Proof.
  apply (build_query_shape elements_order colour_terms colour_logic
           [("color", {[ "red"; "blue" ]})] ("size", {[ "large" ]})).
  - compute_done.
  - reflexivity.
  - reflexivity.
Defined.

(** X2: [build_query] returns a string exactly when the logic mapping
    holds ["quote"] and ["operator"] for every group with terms but the
    last and ["quote"] for the last: the operator of the last group is
    never read, and the groups without terms need no entry.  When it does
    not return, it raises a [KeyError]. *)
Theorem build_query_succeeds_iff (o : set_order) (gt : dict (gset string))
    (gl : gmap string logic) (init : list (string * gset string))
    (lastg : string * gset string) :
  NoDup (keys gt) →
  nonempty_groups gt = init ++ [lastg] →
  ((∃ q, build_query o gt gl = Ok q)
   ↔ forallb (λ kv, has_quote_operator gl kv.1) init
     && has_quote gl lastg.1 = true)
  ∧ (∀ e, build_query o gt gl = Raise e → ∃ k, e = KeyError k).
Proof.
  intros Hnd Hgroups. split.
  - rewrite (build_query_snoc o gl gt init lastg) by done.
    rewrite andb_true_iff, <-static_parts_Ok_iff. split.
    + intros [q Hq].
      destruct (mapM (clause_op o gl) init) as [ps|] eqn:Hps; [|done].
      rewrite bind_Ok in Hq.
      destruct (clause o gl lastg) as [c|] eqn:Hc; [|done].
      split; [by exists ps|by eapply clause_has_quote].
    + intros [[ps ->] [c ->]%(has_quote_clause o)]. by eexists.
  - intros e. rewrite build_query_parts. 
    destruct (parts_of o gl _) as [ps|e'] eqn:Hparts; [done|].
    rewrite bind_Raise. intros [= ->]. by eapply parts_of_Raise.
Qed.

Lemma build_query_succeeds_iff_witness :
  ((∃ q, build_query elements_order colour_terms
           {[ "color" := Logic (Some false) (Some "AND") None;
              "size" := Logic (Some true) None None ]} = Ok q)
   ↔ forallb (λ kv, has_quote_operator
                      {[ "color" := Logic (Some false) (Some "AND") None;
                         "size" := Logic (Some true) None None ]} kv.1)
       [("color", ({[ "red"; "blue" ]} : gset string))]
     && has_quote {[ "color" := Logic (Some false) (Some "AND") None;
                     "size" := Logic (Some true) None None ]}
          ("size", ({[ "large" ]} : gset string)).1 = true)
  ∧ (∀ e, build_query elements_order colour_terms
            {[ "color" := Logic (Some false) (Some "AND") None;
               "size" := Logic (Some true) None None ]} = Raise e
          → ∃ k, e = KeyError k).
Proof.
  apply (build_query_succeeds_iff elements_order colour_terms
           {[ "color" := Logic (Some false) (Some "AND") None;
              "size" := Logic (Some true) None None ]}
           [("color", {[ "red"; "blue" ]})] ("size", {[ "large" ]})).
  - compute_done.
  - reflexivity.
Defined.

(** ** One query per value, in general *)

Lemma query_for_Raise (o : set_order) gl mg static val e :
  query_for o gl mg static val = Raise e → ∃ k, e = KeyError k.
Proof.
  unfold query_for.
  destruct (mapM (clause_op o gl) static) as [ps|e'] eqn:Hps.
  - rewrite bind_Ok. destruct (clause o gl (mg, {[ val ]})) as [c|e'] eqn:Hc;
      [done|].
    rewrite bind_Raise. intros [= ->]. by eapply clause_Raise.
  - rewrite bind_Raise. intros [= ->].
    apply mapM_Raise_inv in Hps as (kv & _ & Hkv). by eapply clause_op_Raise.
Qed.

Lemma query_for_complete (o : set_order) gl mg static val vq :
  query_for o gl mg static val = Ok vq →
  forallb (λ kv, has_quote_operator gl kv.1) static && has_quote gl mg = true.
Proof.
  unfold query_for. intros Hq.
  destruct (mapM (clause_op o gl) static) as [ps|] eqn:Hps; [|done].
  rewrite bind_Ok in Hq.
  destruct (clause o gl (mg, {[ val ]})) as [c|] eqn:Hc; [|done].
  apply andb_true_iff. split.
  - apply (static_parts_Ok_iff o). by exists ps.
  - by apply (clause_has_quote o gl (mg, {[ val ]}) c).
Qed.

(** X3: for a main group with terms, [build_queries_by_main_group]
    returns its list exactly when the logic mapping holds ["quote"] for
    the main group and ["quote"] and ["operator"] for every other group
    with terms: here the operator of every static group is read, the last
    one included.  When it does not return, it raises a [KeyError]. *)
Theorem build_queries_succeeds_iff (o : set_order) (gt : dict (gset string))
    (gl : gmap string logic) (mg : string) (main_terms : gset string) :
  NoDup (keys gt) →
  get gt mg = Some main_terms →
  main_terms ≠ ∅ →
  ((∃ qs, build_queries_by_main_group o gt gl mg = Ok qs)
   ↔ logic_complete gt gl mg = true)
  ∧ (∀ e, build_queries_by_main_group o gt gl mg = Raise e
          → ∃ k, e = KeyError k).
Proof.
  intros Hnd Hget Hne.
  rewrite (build_queries_unfold _ _ _ _ main_terms), static_items by done.
  split; [split|].
  - intros [qs Hqs%mapM_Ok].
    destruct (sorted o main_terms) as [|v vs] eqn:Hsorted.
    { destruct Hne. apply set_eq. intros x.
      rewrite <-(elem_of_sorted o), Hsorted. set_solver. }
    inversion Hqs as [|? vq ? ? Hv]; subst.
    apply query_for_complete in Hv. unfold logic_complete.
    apply andb_true_iff in Hv as [? ?]. by apply andb_true_iff.
  - intros Hlogic.
    destruct (mapM_total (query_for o gl mg (static_groups gt mg))
                (sorted o main_terms)) as [qs Hqs]; [|by exists qs].
    intros val _.
    destruct (query_for_total o gt gl mg val Hlogic) as [q Hq].
    rewrite static_items in Hq by done. by eexists.
  - intros e (val & _ & Hval)%mapM_Raise_inv. by eapply query_for_Raise.
Qed.

Lemma build_queries_succeeds_iff_witness :
  ((∃ qs, build_queries_by_main_group elements_order colour_terms
            {[ "color" := Logic (Some false) (Some "AND") None;
               "size" := Logic (Some true) None None ]} "color" = Ok qs)
   ↔ logic_complete colour_terms
       {[ "color" := Logic (Some false) (Some "AND") None;
          "size" := Logic (Some true) None None ]} "color" = true)
  ∧ (∀ e, build_queries_by_main_group elements_order colour_terms
            {[ "color" := Logic (Some false) (Some "AND") None;
               "size" := Logic (Some true) None None ]} "color" = Raise e
          → ∃ k, e = KeyError k).
Proof.
  apply (build_queries_succeeds_iff elements_order colour_terms
           {[ "color" := Logic (Some false) (Some "AND") None;
              "size" := Logic (Some true) None None ]}
           "color" {[ "red"; "blue" ]}).
  - compute_done.
  - reflexivity.
  - compute_done.
Defined.

Lemma keys_without (gt : dict (gset string)) g : g ∉ keys (without g gt).
Proof.
  unfold keys, without. intros ([k ts] & -> & Hin)%list_elem_of_fmap.
  by apply list_elem_of_filter in Hin as [? _].
Qed.

Lemma nonempty_groups_main_last (gt : dict (gset string)) mg v :
  nonempty_groups (without mg gt ++ [(mg, {[ v ]})])
  = static_groups gt mg ++ [(mg, {[ v ]})].
Proof.
  unfold nonempty_groups, without, static_groups.
  rewrite filter_app, list_filter_filter.
  rewrite (filter_cons_True _ (mg, {[ v ]})) by (simpl; set_solver).
  rewrite filter_nil. f_equal. apply list_filter_iff. intros kv. tauto.
Qed.

(** X4: the query for a value of the main group is the combined query of
    the mapping in which the main group has moved to the end and holds
    that value alone; [build_queries_by_main_group] is [build_query] on
    these mappings, one per value in ascending order. *)
Theorem build_queries_as_build_query (o : set_order) (gt : dict (gset string))
    (gl : gmap string logic) (mg : string) (main_terms : gset string) :
  NoDup (keys gt) →
  get gt mg = Some main_terms →
  build_queries_by_main_group o gt gl mg =
    mapM (λ val,
            q ← build_query o (without mg gt ++ [(mg, {[ val ]})]) gl;
            mret (val, q))
      (sorted o main_terms).
Proof.
  intros Hnd Hget.
  rewrite (build_queries_unfold _ _ _ _ main_terms), static_items by done.
  apply mapM_ext. intros val _.
  rewrite (build_query_snoc o gl _ (static_groups gt mg) (mg, {[ val ]})).
  - unfold query_for. destruct (mapM _ _) as [ps|]; [|done].
    rewrite !bind_Ok. by destruct (clause o gl (mg, {[ val ]})).
  - unfold keys. rewrite fmap_app. apply NoDup_app. split_and!.
    + by apply NoDup_keys_filter.
    + intros k Hk Hmg. apply list_elem_of_singleton in Hmg as ->.
      by apply (keys_without gt mg).
    + apply NoDup_singleton.
  - apply nonempty_groups_main_last.
Qed.

Lemma build_queries_as_build_query_witness :
  build_queries_by_main_group elements_order colour_terms colour_logic "color"
  = mapM (λ val,
            q ← build_query elements_order
                  (without "color" colour_terms ++ [("color", {[ val ]})])
                  colour_logic;
            mret (val, q))
      (sorted elements_order {[ "red"; "blue" ]}).
Proof.
  apply (build_queries_as_build_query elements_order colour_terms colour_logic
           "color" {[ "red"; "blue" ]}).
  - compute_done.
  - reflexivity.
Defined.

(** ** The loaders *)

Section setitem.
Context {V : Type}.
Implicit Types d : dict V.

Lemma get_setitem d k v k' :
  get (setitem d k v) k' = if decide (k = k') then Some v else get d k'.
Proof.
  induction d as [|[k0 v0] d IH]; simpl.
  - rewrite get_cons. by case_decide.
  - destruct (decide (k0 = k)) as [->|Hne]; rewrite !get_cons.
    + by case_decide.
    + rewrite IH. repeat case_decide; congruence.
Qed.

Lemma keys_setitem d k v :
  keys (setitem d k v) = if decide (k ∈ keys d) then keys d else keys d ++ [k].
Proof.
  unfold keys. induction d as [|[k0 v0] d IH].
  - destruct (decide (k ∈ _)) as [Hin|]; [by apply elem_of_nil in Hin|done].
  - simpl setitem. destruct (decide (k0 = k)) as [->|Hne]; rewrite !fmap_cons.
    + simpl. rewrite decide_True; [done|]. by left.
    + rewrite IH. simpl. destruct (decide (k ∈ d.*1)) as [Hin|Hnin].
      * rewrite decide_True; [done|]. by right.
      * rewrite decide_False; [done|].
        intros [?|?]%elem_of_cons; congruence.
Qed.

Lemma NoDup_keys_setitem d k v : NoDup (keys d) → NoDup (keys (setitem d k v)).
Proof.
  intros Hnd. rewrite keys_setitem. case_decide; [done|].
  apply NoDup_app. split_and!; [done| |apply NoDup_singleton].
  intros x Hx ->%list_elem_of_singleton. done.
Qed.
End setitem.

Lemma column_terms_Ok rows col ts :
  column_terms rows col = Ok ts →
  ∀ t, t ∈ ts ↔
       t ≠ "" ∧ ∃ row cell, row ∈ rows ∧ get row col = Some cell
                            ∧ strip cell = t.
Proof.
  unfold column_terms.
  destruct (mapM _ rows) as [cells|] eqn:Hcells; [|done].
  rewrite bind_Ok. unfold mret, result_ret. intros [= <-] t.
  rewrite elem_of_list_to_set, list_elem_of_filter.
  apply mapM_Ok in Hcells. apply and_iff_compat_l.
  induction Hcells as [|row c rows cells Hrow _ IH].
  - split; [by intros ?%elem_of_nil|]. by intros (? & ? & ?%elem_of_nil & _).
  - rewrite elem_of_cons, IH. unfold getitem in Hrow.
    destruct (get row col) as [cell|] eqn:Hget; [|done].
    rewrite bind_Ok in Hrow. unfold mret, result_ret in Hrow.
    injection Hrow as <-. split.
    + intros [->|(row' & cell' & ? & ? & ?)].
      * exists row, cell. split_and!; [by left|done..].
      * exists row', cell'. split_and!; [by right|done..].
    + intros (row' & cell' & [->|?]%elem_of_cons & Hget' & <-).
      * left. congruence.
      * right. by exists row', cell'.
Qed.



Lemma columns_into_Ok rows fns acc gt :
  columns_into rows fns acc = Ok gt →
  (NoDup (keys acc) → NoDup (keys gt))
  ∧ (∀ col, col ∈ keys gt ↔ col ∈ keys acc ∨ col ∈ fns)
  ∧ (∀ col, col ∈ fns → ∃ ts, get gt col = Some ts ∧ column_terms rows col = Ok ts)
  ∧ (∀ col, col ∉ fns → get gt col = get acc col)
  ∧ (NoDup (keys acc ++ fns) → keys gt = keys acc ++ fns).
Proof.
  revert acc. induction fns as [|c fns IH]; intros acc; simpl.
  - unfold mret, result_ret. intros [= <-]. split_and!; try done.
    + intros col. rewrite elem_of_nil. tauto.
    + by intros col ?%elem_of_nil.
    + by rewrite app_nil_r.
  - destruct (column_terms rows c) as [ts|] eqn:Hc; [|done]. rewrite bind_Ok.
    intros (Hnd & Hkeys & Hin & Hout & Hord)%IH. split_and!.
    + intros ?. by apply Hnd, NoDup_keys_setitem.
    + intros col. rewrite Hkeys, keys_setitem, elem_of_cons.
      case_decide as Hc'; rewrite ?elem_of_app, ?list_elem_of_singleton.
      * split; [tauto|]. intros [?|[->|?]]; tauto.
      * tauto.
    + intros col Hcol.
      destruct (decide (col ∈ fns)) as [?|Hnot]; [by apply Hin|].
      apply elem_of_cons in Hcol as [->|?]; [|done].
      exists ts. split; [|done].
      rewrite Hout, get_setitem by done. by rewrite decide_True.
    + intros col Hcol%not_elem_of_cons. destruct Hcol as [Hne Hcol].
      rewrite Hout, get_setitem by done. by rewrite decide_False.
    + intros Hnd'. rewrite Hord; rewrite keys_setitem, decide_False.
      * by rewrite <-app_assoc.
      * intros Hc'. apply NoDup_app in Hnd' as (_ & Hdisj & _).
        apply (Hdisj c Hc'). by left.
      * rewrite <-app_assoc. done.
      * intros Hc'. apply NoDup_app in Hnd' as (_ & Hdisj & _).
        apply (Hdisj c Hc'). by left.
Qed.



(** X5: the set that [read_csv_terms] gives a column holds exactly the
    cells of that column, stripped, that are not blank; every term in it
    is non-empty and has no leading or trailing whitespace. *)
Theorem read_csv_terms_cells (fieldnames : list string)
    (rows : list (dict string)) (gt : dict (gset string)) (col : string)
    (ts : gset string) :
  read_csv_terms fieldnames rows = Ok gt →
  get gt col = Some ts →
  (∀ t, t ∈ ts ↔
        t ≠ "" ∧ ∃ row cell, row ∈ rows ∧ get row col = Some cell
                             ∧ strip cell = t)
  ∧ (∀ t, t ∈ ts → t ≠ "" ∧ trimmed t = true).
Proof.
  intros (_ & Hkeys & Hin & _)%columns_into_Ok Hget.
  assert (col ∈ fieldnames) as Hcol.
  { destruct (Hkeys col) as [[?%elem_of_nil|?] _]; [|done..].
    destruct (decide (col ∈ keys gt)) as [|Hnot]; [done|].
    apply get_None in Hnot. congruence. }
  destruct (Hin col Hcol) as (ts' & Hget' & Hts).
  assert (ts' = ts) as -> by congruence.
  pose proof (column_terms_Ok rows col ts Hts) as Hmem.
  split; [done|]. intros t (Hne & row & cell & _ & _ & <-)%Hmem.
  split; [done|]. by destruct (strip_split cell) as (? & ? & _ & _ & _ & ?).
Qed.

Lemma read_csv_terms_cells_witness :
  (∀ t, t ∈ ({[ "red"; "dark blue" ]} : gset string) ↔
        t ≠ "" ∧ ∃ row cell, row ∈ sample_rows ∧ get row "colour" = Some cell
                             ∧ strip cell = t)
  ∧ (∀ t, t ∈ ({[ "red"; "dark blue" ]} : gset string)
          → t ≠ "" ∧ trimmed t = true).
Proof.
  apply (read_csv_terms_cells ["colour"; "size"] sample_rows
           [("colour", {[ "red"; "dark blue" ]}); ("size", ∅)]).
  - reflexivity.
  - reflexivity.
Defined.

(** X6: the mapping that [read_csv_terms] returns is a dictionary whose
    keys are the field names, in the order of the file's columns (field
    names that occur once); a column of blank cells is a key as well, with
    the empty set. *)
Theorem read_csv_terms_columns (fieldnames : list string)
    (rows : list (dict string)) (gt : dict (gset string)) :
  read_csv_terms fieldnames rows = Ok gt →
  NoDup (keys gt)
  ∧ (∀ col, col ∈ keys gt ↔ col ∈ fieldnames)
  ∧ (NoDup fieldnames → keys gt = fieldnames)
  ∧ (∀ col, col ∈ fieldnames →
       (∀ row cell, row ∈ rows → get row col = Some cell → strip cell = "") →
       get gt col = Some ∅).
Proof.
  intros Hread.
  pose proof Hread as (Hnd & Hkeys & Hin & _ & Hord)%columns_into_Ok.
  split_and!.
  - apply Hnd, NoDup_nil_2.
  - intros col. rewrite Hkeys, elem_of_nil. tauto.
  - intros Hfns. by apply Hord.
  - intros col Hcol Hblank. destruct (Hin col Hcol) as (ts & Hget & Hts).
    rewrite Hget. f_equal. apply set_eq. intros t.
    rewrite (column_terms_Ok rows col ts Hts). split; [|set_solver].
    intros (Hne & row & cell & Hrow & Hcell & <-). destruct Hne. eauto.
Qed.

Lemma read_csv_terms_columns_witness :
  NoDup (keys [("colour", ({[ "red"; "dark blue" ]} : gset string));
               ("size", ∅)])
  ∧ (∀ col, col ∈ keys [("colour", ({[ "red"; "dark blue" ]} : gset string));
                         ("size", ∅)]
            ↔ col ∈ ["colour"; "size"])
  ∧ (NoDup ["colour"; "size"] →
     keys [("colour", ({[ "red"; "dark blue" ]} : gset string)); ("size", ∅)]
     = ["colour"; "size"])
  ∧ (∀ col, col ∈ ["colour"; "size"] →
       (∀ row cell, row ∈ sample_rows → get row col = Some cell
                    → strip cell = "") →
       get [("colour", ({[ "red"; "dark blue" ]} : gset string)); ("size", ∅)]
         col = Some ∅).
Proof.
  apply (read_csv_terms_columns ["colour"; "size"] sample_rows).
  reflexivity.
Defined.


Lemma read_csv_terms_clean_term_aux (fieldnames : list string)
    (rows : list (dict string)) (gt : dict (gset string)) (col : string)
    (ts : gset string) (t : string) :
  read_csv_terms fieldnames rows = Ok gt → get gt col = Some ts → t ∈ ts →
  t ≠ "" ∧ trimmed t = true.
Proof.
  intros Hread Hget Ht. unfold read_csv_terms in Hread.
  apply columns_into_Ok in Hread as (_ & Hkeys & Hin & _).
  assert (col ∈ fieldnames) as Hcol.
  { destruct (Hkeys col) as [[?%elem_of_nil|?] _]; [|done..].
    destruct (decide (col ∈ keys gt)) as [|Hnot]; [done|].
    apply get_None in Hnot. congruence. }
  destruct (Hin col Hcol) as (ts' & Hget' & Hts).
  assert (ts' = ts) as -> by congruence.
  apply (column_terms_Ok rows col ts Hts) in Ht
      as (? & row & cell & _ & _ & <-).
  split; [done|]. by destruct (strip_split cell) as (? & ? & _ & _ & _ & ?).
Qed.

(** X8: on a term that [read_csv_terms] hands over, [clean_term] returns
    the term between double quotes when [quote] is set or the term
    contains a space, and the term itself otherwise; never the empty
    string. *)
Theorem read_csv_terms_clean_term (fieldnames : list string)
    (rows : list (dict string)) (gt : dict (gset string)) (col : string)
    (ts : gset string) (t : string) (quote : bool) :
  read_csv_terms fieldnames rows = Ok gt →
  get gt col = Some ts →
  t ∈ ts →
  clean_term t quote ≠ ""
  ∧ (quote = true ∨ has_char " " t → clean_term t quote = quoted t)
  ∧ (quote = false → ¬ has_char " " t → clean_term t quote = t).
Proof.
  intros Hread Hget Ht.
  destruct (read_csv_terms_clean_term_aux fieldnames rows gt col ts t
              Hread Hget Ht) as [Hne Htrim].
  destruct (clean_term_trimmed t quote Htrim) as [_ Hclean].
  destruct (Hclean Hne) as [Hq Hplain]. split_and!; [|done..].
  rewrite clean_term_nonempty, strip_trimmed by done.
  destruct (quote || contains " " t); [discriminate|done].
Qed.

Lemma read_csv_terms_clean_term_witness :
  clean_term "dark blue" false ≠ ""
  ∧ (false = true ∨ has_char " " "dark blue"
     → clean_term "dark blue" false = quoted "dark blue")
  ∧ (false = false → ¬ has_char " " "dark blue"
     → clean_term "dark blue" false = "dark blue").
Proof.
  apply (read_csv_terms_clean_term ["colour"; "size"] sample_rows
           [("colour", {[ "red"; "dark blue" ]}); ("size", ∅)]
           "colour" {[ "red"; "dark blue" ]}).
  - reflexivity.
  - reflexivity.
  - compute_done.
Defined.

(** X9: a column that [read_csv_terms] hands over with terms is printed
    by [format_group] as a clause between parentheses that holds every
    term of the column, none of them formatted to the empty string. *)
Theorem read_csv_terms_format_group (o : set_order) (fieldnames : list string)
    (rows : list (dict string)) (gt : dict (gset string)) (col : string)
    (ts : gset string) (quote : bool) (op : string) :
  read_csv_terms fieldnames rows = Ok gt →
  get gt col = Some ts →
  ts ≠ ∅ →
  format_group o ts quote op
  = "(" +:+ join (" " +:+ op +:+ " ")
              ((λ t, clean_term t quote) <$> sorted o ts) +:+ ")"
  ∧ length (sorted o ts) = size ts
  ∧ Forall (λ f, f ≠ "") ((λ t, clean_term t quote) <$> sorted o ts).
Proof.
  intros Hread Hget Hne.
  assert (∀ t, t ∈ sorted o ts → t ≠ "") as Hterms.
  { intros t Ht%elem_of_sorted.
    by destruct (read_csv_terms_clean_term_aux fieldnames rows gt col ts t
                   Hread Hget Ht). }
  assert (kept_terms o ts = sorted o ts) as Hkept.
  { unfold kept_terms. induction (sorted o ts) as [|t l IH]; [done|].
    rewrite filter_cons_True by (apply Hterms; by left).
    f_equal. apply IH. intros t' ?. apply Hterms. by right. }
  split_and!.
  - rewrite format_group_kept, Hkept.
    destruct (sorted o ts) eqn:Hs; [|done].
    destruct Hne. apply set_eq. intros x.
    rewrite <-(elem_of_sorted o), Hs. set_solver.
  - apply length_sorted.
  - apply Forall_fmap, Forall_forall. intros t Ht%elem_of_sorted. simpl.
    destruct (read_csv_terms_clean_term_aux fieldnames rows gt col ts t
                Hread Hget Ht) as [Hn Htrim].
    rewrite clean_term_nonempty, strip_trimmed by done.
    destruct (quote || contains " " t); [discriminate|done].
Qed.

Lemma read_csv_terms_format_group_witness :
  format_group elements_order {[ "red"; "dark blue" ]} false "OR"
  = "(" +:+ join (" " +:+ "OR" +:+ " ")
              ((λ t, clean_term t false)
                 <$> sorted elements_order {[ "red"; "dark blue" ]}) +:+ ")"
  ∧ length (sorted elements_order {[ "red"; "dark blue" ]})
    = size ({[ "red"; "dark blue" ]} : gset string)
  ∧ Forall (λ f, f ≠ "")
      ((λ t, clean_term t false)
         <$> sorted elements_order {[ "red"; "dark blue" ]}).
Proof.
  apply (read_csv_terms_format_group elements_order ["colour"; "size"]
           sample_rows [("colour", {[ "red"; "dark blue" ]}); ("size", ∅)]
           "colour").
  - reflexivity.
  - reflexivity.
  - compute_done.
Defined.

(** ** [read_terms_grouped] *)

Lemma get_add_term (gt : dict (gset string)) k v k' :
  get (add_term gt k v) k' =
    if decide (k = k') then Some ({[ v ]} ∪ default ∅ (get gt k))
    else get gt k'.
Proof.
  induction gt as [|[k0 ts0] gt IH]; simpl.
  - rewrite get_cons. case_decide; [|done]. f_equal.
    by rewrite (right_id_L ∅ (∪)).
  - destruct (decide (k0 = k)) as [->|Hne]; rewrite !get_cons.
    + rewrite (decide_True (P := k = k)) by done. by case_decide.
    + rewrite IH, (decide_False (P := k0 = k)) by done.
      repeat case_decide; congruence.
Qed.

Lemma keys_add_term (gt : dict (gset string)) k v :
  keys (add_term gt k v)
  = if decide (k ∈ keys gt) then keys gt else keys gt ++ [k].
Proof.
  unfold keys. induction gt as [|[k0 ts0] gt IH].
  - destruct (decide (k ∈ _)) as [Hin|]; [by apply elem_of_nil in Hin|done].
  - simpl add_term. destruct (decide (k0 = k)) as [->|Hne]; rewrite !fmap_cons.
    + simpl. rewrite decide_True; [done|]. by left.
    + rewrite IH. simpl. destruct (decide (k ∈ gt.*1)) as [Hin|Hnin].
      * rewrite decide_True; [done|]. by right.
      * rewrite decide_False; [done|].
        intros [?|?]%elem_of_cons; congruence.
Qed.

Lemma grouped_inv_iff (P Q : string → string → Prop) gt :
  (∀ col t, P col t ↔ Q col t) → grouped_inv P gt → grouped_inv Q gt.
Proof.
  intros HPQ [Hnd Hinv]. split; [done|]. intros col. specialize (Hinv col).
  destruct (get gt col) as [ts|].
  - destruct Hinv as [? Hmem]. split; [done|]. intros t.
    by rewrite Hmem, HPQ.
  - intros t. by rewrite <-HPQ.
Qed.

Lemma grouped_inv_add_term (P : string → string → Prop) gt k v :
  grouped_inv P gt →
  grouped_inv (λ col t, P col t ∨ (col = k ∧ t = v)) (add_term gt k v).
Proof.
  intros [Hnd Hinv]. split.
  - rewrite keys_add_term. case_decide; [done|].
    apply NoDup_app. split_and!; [done| |apply NoDup_singleton].
    by intros x Hx ->%list_elem_of_singleton.
  - intros col. rewrite get_add_term. specialize (Hinv col).
    destruct (decide (k = col)) as [->|Hne].
    + split; [set_solver|]. intros t. rewrite elem_of_union, elem_of_singleton.
      destruct (get gt col) as [ts|]; simpl.
      * destruct Hinv as [_ Hmem]. rewrite Hmem. tauto.
      * rewrite elem_of_empty. specialize (Hinv t). tauto.
    + destruct (get gt col) as [ts|].
      * destruct Hinv as [? Hmem]. split; [done|]. intros t. rewrite Hmem.
        split; [tauto|]. intros [?|[? _]]; [done|congruence].
      * intros t [?|[? _]]; [by eapply Hinv|congruence].
Qed.

Lemma grouped_inv_row (P : string → string → Prop) gt (row : dict string) :
  grouped_inv P gt →
  grouped_inv
    (λ col t, P col t
              ∨ (t ≠ "" ∧ ∃ cell, (col, cell) ∈ row ∧ strip cell = t))
    (foldl (λ group_terms '(key, value),
              let value := strip value in
              if bool_decide (value ≠ "")
              then add_term group_terms key value
              else group_terms)
       gt row).
Proof.
  revert P gt. induction row as [|[k cell] row IH]; intros P gt Hinv.
  - simpl. eapply grouped_inv_iff; [|done]. intros col t.
    split; [tauto|]. intros [?|(_ & ? & ?%elem_of_nil & _)]; done.
  - simpl. case_bool_decide as Hcell.
    + eapply grouped_inv_iff; [|apply IH, grouped_inv_add_term, Hinv].
      intros col t. simpl. split.
      * intros [[?|[-> ->]]|(? & c & ? & ?)]; [by left|right..].
        -- split; [done|]. exists cell. split; [by left|done].
        -- split; [done|]. exists c. split; [by right|done].
      * intros [?|(? & c & [[= -> ->]|?]%elem_of_cons & ?)].
        -- by left; left.
        -- left; right. done.
        -- right. split; [done|]. by exists c.
    + eapply grouped_inv_iff; [|apply IH, Hinv].
      intros col t. simpl. split.
      * intros [?|(? & c & ? & ?)]; [by left|right].
        split; [done|]. exists c. split; [by right|done].
      * intros [?|(? & c & [[= -> ->]|?]%elem_of_cons & ?)].
        -- by left.
        -- subst t. by destruct Hcell.
        -- right. split; [done|]. by exists c.
Qed.

Lemma grouped_inv_rows (P : string → string → Prop) gt
    (rows : list (dict string)) :
  grouped_inv P gt →
  grouped_inv (λ col t, P col t ∨ cell_term rows col t)
    (foldl (λ group_terms row,
              foldl (λ group_terms '(key, value),
                       let value := strip value in
                       if bool_decide (value ≠ "")
                       then add_term group_terms key value
                       else group_terms)
                group_terms row)
       gt rows).
Proof.
  unfold cell_term.
  revert P gt. induction rows as [|row rows IH]; intros P gt Hinv.
  - simpl. eapply grouped_inv_iff; [|done]. intros col t.
    split; [tauto|]. intros [?|(_ & ? & ? & ?%elem_of_nil & _)]; done.
  - simpl. eapply grouped_inv_iff; [|apply IH, grouped_inv_row, Hinv].
    intros col t. simpl. split.
    + intros [[?|(? & c & ? & ?)]|(? & r & c & ? & ? & ?)]; [by left|right..].
      * split; [done|]. exists row, c. split_and!; [by left|done..].
      * split; [done|]. exists r, c. split_and!; [by right|done..].
    + intros [?|(? & r & c & [->|?]%elem_of_cons & ? & ?)].
      * by left; left.
      * left; right. split; [done|]. by exists c.
      * right. split; [done|]. by exists r, c.
Qed.

Lemma read_terms_grouped_inv (rows : list (dict string)) :
  grouped_inv (cell_term rows) (read_terms_grouped rows).
Proof.
  eapply grouped_inv_iff; [|apply (grouped_inv_rows (λ _ _, False) [] rows)].
  - intros col t. tauto.
  - split; [apply NoDup_nil_2|]. intros col. by intros t ?.
Qed.

(** X10: [read_terms_grouped] returns a dictionary in which the set of a
    column holds exactly the non-blank cells of the column, stripped; a
    column is a key exactly when it has such a cell, so that no set is
    empty; every term is non-empty and has no leading or trailing
    whitespace. *)
Theorem read_terms_grouped_cells (rows : list (dict string)) :
  NoDup (keys (read_terms_grouped rows))
  ∧ (∀ col ts,
       get (read_terms_grouped rows) col = Some ts →
       ts ≠ ∅
       ∧ (∀ t, t ∈ ts ↔ cell_term rows col t)
       ∧ (∀ t, t ∈ ts → t ≠ "" ∧ trimmed t = true))
  ∧ (∀ col, col ∈ keys (read_terms_grouped rows) ↔ ∃ t, cell_term rows col t).
Proof.
  destruct (read_terms_grouped_inv rows) as [Hnd Hinv].
  split_and!; [done| |].
  - intros col ts Hget. specialize (Hinv col). rewrite Hget in Hinv.
    destruct Hinv as [Hne Hmem]. split_and!; [done..|].
    intros t (? & row & cell & _ & _ & <-)%Hmem. split; [done|].
    by destruct (strip_split cell) as (? & ? & _ & _ & _ & ?).
  - intros col. specialize (Hinv col).
    destruct (get (read_terms_grouped rows) col) as [ts|] eqn:Hget.
    + destruct Hinv as [Hne Hmem]. split.
      * intros _. apply set_choose_L in Hne as [t Ht]. exists t. by apply Hmem.
      * intros _. destruct (decide (col ∈ keys (read_terms_grouped rows)))
          as [|Hnot]; [done|].
        apply get_None in Hnot. congruence.
    + split.
      * intros Hin. by apply get_None in Hget.
      * intros [t Ht]. by destruct (Hinv t).
Qed.



(** ** The writer *)

Global Instance label_le_po : PartialOrder label_le.
Proof.
  split; [split|].
  - intros [x|]; simpl; [reflexivity|done].
  - intros [x|] [y|] [z|]; simpl; try done. apply transitivity.
  - intros [x|] [y|]; simpl; try done. intros ??. f_equal.
    by apply (anti_symm String.le).
Qed.

Global Instance label_le_total : Total label_le.
Proof. intros [x|] [y|]; simpl; auto. apply total, _. Qed.

Global Instance query_le_po : PartialOrder query_le.
Proof.
  split; [split|].
  - intros [a q]. split; simpl; [reflexivity|]. by intros _.
  - intros [a1 q1] [a2 q2] [a3 q3] [H12 H12'] [H23 H23']. simpl in *.
    split; simpl.
    + by etrans.
    + intros <-. assert (a1 = a2) as <- by (by apply (anti_symm label_le)).
      etrans; [by apply H12'|by apply H23'].
  - intros [a1 q1] [a2 q2] [H12 H12'] [H21 H21']. simpl in *.
    assert (a1 = a2) as <- by (by apply (anti_symm label_le)).
    f_equal. apply (anti_symm String.le); auto.
Qed.

Global Instance query_le_total : Total query_le.
Proof.
  intros [a1 q1] [a2 q2]. unfold query_le. simpl.
  destruct (decide (a1 = a2)) as [<-|Hne].
  - destruct (total String.le q1 q2); [left|right]; by split.
  - destruct (total label_le a1 a2); [left|right]; split; congruence.
Qed.



Lemma sorted_queries_sorted qs :
  mixed qs = false → StronglySorted query_le qs → sorted_queries qs = Some qs.
Proof.
  intros Hmixed Hsorted. unfold sorted_queries. rewrite Hmixed. f_equal.
  apply (StronglySorted_unique query_le);
    [apply StronglySorted_merge_sort; apply _|done|].
  apply merge_sort_Permutation.
Qed.



Lemma build_queries_values (o : set_order) gt gl mg qs :
  build_queries_by_main_group o gt gl mg = Ok qs →
  ∃ main_terms, get gt mg = Some main_terms ∧ qs.*1 = sorted o main_terms.
Proof.
  intros Hqs. destruct (get gt mg) as [main_terms|] eqn:Hget.
  - exists main_terms. split; [done|].
    rewrite (build_queries_unfold _ _ _ _ main_terms) in Hqs by done.
    apply mapM_Ok in Hqs.
    induction Hqs as [|v vq vs qs Hv _ IH]; [done|].
    rewrite fmap_cons, IH. f_equal. unfold query_for in Hv.
    destruct (mapM _ _) as [ps|]; [|done]. rewrite bind_Ok in Hv.
    destruct (clause _ _ _) as [c|]; [|done]. rewrite bind_Ok in Hv.
    unfold mret, result_ret in Hv. by injection Hv as <-.
  - apply get_None in Hget. unfold build_queries_by_main_group in Hqs.
    by rewrite bool_decide_eq_true_2 in Hqs.
Qed.

Lemma labelled_sorted (qs : list (string * string)) :
  StronglySorted String.le qs.*1 → NoDup qs.*1 →
  mixed (labelled qs) = false ∧ StronglySorted query_le (labelled qs).
Proof.
  intros Hs Hnd. split.
  - unfold mixed. apply andb_false_iff. left.
    induction qs as [|vq qs IH]; [done|]. simpl. apply IH.
    + by inversion Hs.
    + by inversion Hnd.
  - induction qs as [|[v q] qs IH]; [constructor|]. csimpl in *.
    apply StronglySorted_cons in Hs as [Hv Hs].
    apply NoDup_cons in Hnd as [Hnin Hnd].
    constructor; [by apply IH|]. fold (labelled qs).
    apply Forall_fmap, Forall_forall. intros [v' q'] Hin. split; simpl.
    + rewrite Forall_forall in Hv. apply Hv, list_elem_of_fmap.
      by exists (v', q').
    + intros [= <-]. destruct Hnin. apply list_elem_of_fmap. by exists (v, q').
Qed.

(** X13: the queries that [build_queries_by_main_group] returns are
    written in the order in which it returns them, a block for each value
    of the main group in ascending order: sorting them again changes
    nothing. *)
Theorem write_queries_after_build (o : set_order) (gt : dict (gset string))
    (gl : gmap string logic) (mg : string) (qs : list (string * string))
    (main_group : option string) :
  build_queries_by_main_group o gt gl mg = Ok qs →
  queries_text (labelled qs) main_group
  = Some (String.concat "" (block main_group <$> labelled qs)).
Proof.
  intros (main_terms & _ & Hvalues)%build_queries_values.
  destruct (labelled_sorted qs) as [Hmixed Hsorted].
  - rewrite Hvalues. apply sorted_sorted.
  - rewrite Hvalues. apply sorted_NoDup.
  - unfold queries_text. by rewrite sorted_queries_sorted.
Qed.

Lemma write_queries_after_build_witness :
  queries_text (labelled [("apple", "(apple)"); ("banana", "(banana)")])
    (Some "fruit")
  = Some (String.concat ""
            (block (Some "fruit")
               <$> labelled [("apple", "(apple)"); ("banana", "(banana)")])).
Proof.
  apply (write_queries_after_build elements_order fruit_terms fruit_logic
           "fruit").
  reflexivity.
Defined.



(** ** The summary *)

Lemma summary_part_Ok gl g :
  (∃ p, (lg ← logic_of gl g;
         op ← field "operator" (operator lg);
         mret (g +:+ ":" +:+ op +:+ "/" +:+ get_internal_operator lg)) = Ok p)
  ↔ has_operator gl g = true.
Proof.
  unfold has_operator, logic_of.
  destruct (gl !! g) as [[q [op|] iop]|]; simpl.
  - split; [done|]. by eexists.
  - split; [by intros [? ?]|done].
  - split; [by intros [? ?]|done].
Qed.

Lemma summary_part_Raise gl g e :
  (lg ← logic_of gl g;
   op ← field "operator" (operator lg);
   mret (g +:+ ":" +:+ op +:+ "/" +:+ get_internal_operator lg)) = Raise e →
  ∃ k, e = KeyError k.
Proof.
  unfold logic_of. destruct (gl !! g) as [[q [op|] iop]|]; simpl;
    intros; simplify_eq; eauto.
Qed.

(** X15: the summary of the logic needs ["operator"] of every group other
    than the main group, whether the group has terms or not, and nothing
    of the main group; ["quote"] is not read.  [write_summary_metadata]
    returns exactly when the logic mapping has them, and otherwise raises
    a [KeyError], the files being as they were. *)
Theorem write_summary_metadata_succeeds (sq_id now input_file : string)
    (main_group : option string) (gt : dict (gset string))
    (gl : gmap string logic) (num_queries : nat) (metadata_path : string)
    (fs : gmap string (list csv_record)) :
  ((∃ fs', write_summary_metadata sq_id now input_file main_group gt gl
             num_queries metadata_path fs = Ok fs')
   ↔ ∀ g, g ∈ keys gt → Some g ≠ main_group → has_operator gl g = true)
  ∧ (∀ e, write_summary_metadata sq_id now input_file main_group gt gl
            num_queries metadata_path fs = Raise e → ∃ k, e = KeyError k).
Proof.
  unfold write_summary_metadata, data_row, group_logic_summary.
  set (f := λ g, _ ≫= _).
  set (groups := filter _ (keys gt)).
  split; [split|].
  - intros [fs' Hfs] g Hg Hmain.
    destruct (mapM f groups) as [parts|] eqn:Hparts; [|done].
    apply mapM_Ok in Hparts.
    assert (g ∈ groups) as Hin by (by apply list_elem_of_filter).
    clear Hfs. induction Hparts as [|g' p' groups' parts' Hp _ IH];
      [by apply elem_of_nil in Hin|].
    apply elem_of_cons in Hin as [->|Hin]; [|by apply IH].
    apply summary_part_Ok. by exists p'.
  - intros Hall. destruct (mapM_total f groups) as [parts ->]; [|by eexists].
    intros g [Hmain Hg]%list_elem_of_filter. apply summary_part_Ok. by apply Hall.
  - intros e. destruct (mapM f groups) as [parts|e'] eqn:Hparts; [done|].
    rewrite !bind_Raise. intros [= ->].
    apply mapM_Raise_inv in Hparts as (g & _ & Hg).
    by apply summary_part_Raise in Hg.
Qed.

(** X16: a call of [write_summary_metadata] that returns adds one row to
    the metadata file and leaves the other files alone; it writes the
    header when the file did not exist, so that a file it has created
    keeps the shape "header, then rows" call after call. *)
Theorem write_summary_metadata_appends (sq_id now input_file : string)
    (main_group : option string) (gt : dict (gset string))
    (gl : gmap string logic) (num_queries : nat) (metadata_path : string)
    (fs fs' : gmap string (list csv_record)) :
  write_summary_metadata sq_id now input_file main_group gt gl num_queries
    metadata_path fs = Ok fs' →
  ∃ row,
    data_row sq_id now input_file main_group gt gl num_queries = Ok row
    ∧ (fs !! metadata_path = None →
       fs' !! metadata_path = Some [Header; Data row])
    ∧ (∀ old, fs !! metadata_path = Some old →
         fs' !! metadata_path = Some (old ++ [Data row])
         ∧ (headed old → headed (old ++ [Data row])))
    ∧ (∀ path, path ≠ metadata_path → fs' !! path = fs !! path).
Proof.
  unfold write_summary_metadata.
  destruct (data_row _ _ _ _ _ _ _) as [row|]; [|done].
  rewrite bind_Ok. unfold mret, result_ret. intros [= <-].
  exists row. split_and!; [done|..].
  - intros Hnone. rewrite lookup_insert_eq, Hnone.
    by rewrite bool_decide_eq_false_2 by (by intros [? ?]).
  - intros old Hold. rewrite lookup_insert_eq, Hold.
    rewrite bool_decide_eq_true_2 by done. split; [done|].
    intros [rows ->]. exists (rows ++ [row]). by rewrite fmap_app.
  - intros path Hne. by rewrite lookup_insert_ne.
Qed.

Lemma write_summary_metadata_appends_witness :
  ∃ row,
    data_row "id" "now" "terms.csv" None colour_terms colour_logic 1 = Ok row
    ∧ ((∅ : gmap string (list csv_record)) !! "summary.csv" = None →
       (<[ "summary.csv" :=
             [Header;
              Data (Summary.Row "id" "now" "terms.csv" "(combined)" 2 3 1
                      "color:AND/OR; size:AND/OR")] ]> ∅
          : gmap string (list csv_record)) !! "summary.csv"
       = Some [Header; Data row])
    ∧ (∀ old, (∅ : gmap string (list csv_record)) !! "summary.csv" = Some old →
         (<[ "summary.csv" :=
               [Header;
                Data (Summary.Row "id" "now" "terms.csv" "(combined)" 2 3 1
                        "color:AND/OR; size:AND/OR")] ]> ∅
            : gmap string (list csv_record)) !! "summary.csv"
         = Some (old ++ [Data row])
         ∧ (headed old → headed (old ++ [Data row])))
    ∧ (∀ path, path ≠ "summary.csv" →
         (<[ "summary.csv" :=
               [Header;
                Data (Summary.Row "id" "now" "terms.csv" "(combined)" 2 3 1
                        "color:AND/OR; size:AND/OR")] ]> ∅
            : gmap string (list csv_record)) !! path
         = (∅ : gmap string (list csv_record)) !! path).
Proof.
  apply (write_summary_metadata_appends "id" "now" "terms.csv" None
           colour_terms colour_logic 1 "summary.csv" ∅).
  reflexivity.
Defined.

(** ** The command line *)

Section cli_facts.
Context (upper lower : string → string).

Lemma read_choice_Some valid inputs answer rest :
  read_choice upper valid inputs = Some (answer, rest) →
  ∃ skipped line,
    inputs = skipped ++ line :: rest
    ∧ answer = upper (strip line) ∧ answer ∈ valid
    ∧ Forall (λ l, upper (strip l) ∉ valid) skipped.
Proof.
  induction inputs as [|line inputs IH]; [done|]. simpl.
  case_bool_decide as Hvalid.
  - intros [= <- <-]. by exists [], line.
  - intros (skipped & line' & -> & ? & ? & ?)%IH.
    exists (line :: skipped), line'. split_and!; [done..|]. by constructor.
Qed.

Lemma read_choice_None valid inputs :
  read_choice upper valid inputs = None ↔
  Forall (λ l, upper (strip l) ∉ valid) inputs.
Proof.
  induction inputs as [|line inputs IH]; simpl.
  - split; [constructor|done].
  - case_bool_decide as Hvalid.
    + split; [done|]. by inversion 1.
    + rewrite IH. split; [by constructor|by inversion 1].
Qed.

Lemma prompt_headers_Some headers settings inputs settings' rest :
  prompt_headers upper lower headers settings inputs = Some (settings', rest) →
  (∀ h, is_Some (settings' !! h) ↔ h ∈ headers ∨ is_Some (settings !! h))
  ∧ ((∀ h lg, settings !! h = Some lg → asked lg) →
     ∀ h lg, settings' !! h = Some lg → asked lg)
  ∧ ∃ used, inputs = used ++ rest ∧ 3 * length headers ≤ length used.
Proof.
  revert settings inputs.
  induction headers as [|header headers IH]; intros settings inputs; simpl.
  - intros [= <- <-]. split_and!.
    + intros h. rewrite elem_of_nil. tauto.
    + done.
    + by exists [].
  - destruct inputs as [|line inputs]; [done|].
    destruct (read_choice upper _ inputs) as [[op inputs1]|] eqn:Hop; [|done].
    destruct (read_choice upper _ inputs1) as [[iop inputs2]|] eqn:Hiop;
      [|done].
    intros (Hdom & Hasked & used & -> & Hlen)%IH.
    apply read_choice_Some in Hop as (s1 & l1 & -> & -> & Hop & _).
    apply read_choice_Some in Hiop as (s2 & l2 & -> & -> & Hiop & _).
    split_and!.
    + intros h. rewrite Hdom, elem_of_cons, lookup_insert_is_Some. split.
      * intros [?|[->|[_ ?]]]; auto.
      * intros [[->|?]|?]; auto. destruct (decide (header = h)); auto.
    + intros Hall. apply Hasked. intros h lg.
      rewrite lookup_insert. destruct (decide (header = h)); [|apply Hall].
      intros [= <-]. by eexists _, _, _.
    + exists (line :: s1 ++ l1 :: s2 ++ l2 :: used). split.
      * simpl. by rewrite <-!app_assoc, <-!app_comm_cons, <-!app_assoc.
      * simpl. rewrite !length_app. simpl. rewrite !length_app. simpl. lia.
Qed.
End cli_facts.

(** X17: each of the two loops that ask for an operator skips the lines
    that are not, once stripped and in capitals, one of the allowed words,
    and returns the first line that is, in capitals, with the lines after
    it; when no line is allowed it runs until the input ends. *)
Theorem read_choice_first_valid (upper : string → string)
    (valid inputs : list string) :
  match read_choice upper valid inputs with
  | Some (answer, rest) =>
      ∃ skipped line,
        inputs = skipped ++ line :: rest
        ∧ answer = upper (strip line) ∧ answer ∈ valid
        ∧ Forall (λ l, upper (strip l) ∉ valid) skipped
  | None => Forall (λ l, upper (strip l) ∉ valid) inputs
  end.
Proof.
  destruct (read_choice upper valid inputs) as [[answer rest]|] eqn:Hread.
  - by apply read_choice_Some.
  - by apply read_choice_None.
Qed.

(** X18: the settings that [prompt_group_settings] returns have an entry
    for every header and for nothing else; every entry holds ["quote"], an
    ["operator"] among AND, OR and NOT and an ["internal_operator"] among
    OR and AND; at least three lines are read for each header. *)
Theorem prompt_group_settings_complete (upper lower : string → string)
    (headers inputs : list string) (settings : gmap string logic)
    (rest : list string) :
  prompt_group_settings upper lower headers inputs = Some (settings, rest) →
  (∀ h, is_Some (settings !! h) ↔ h ∈ headers)
  ∧ (∀ h lg, settings !! h = Some lg → asked lg)
  ∧ ∃ used, inputs = used ++ rest ∧ 3 * length headers ≤ length used.
Proof.
  intros (Hdom & Hasked & Hused)%prompt_headers_Some. split_and!.
  - intros h. rewrite Hdom, lookup_empty. split; [|by left].
    intros [?|[? ?]]; done.
  - apply Hasked. intros h lg. by rewrite lookup_empty.
  - done.
Qed.

Lemma prompt_group_settings_complete_witness :
  (∀ h, is_Some (({[ "color" := Logic (Some true) (Some "AND") (Some "OR") ]}
                    : gmap string logic) !! h) ↔ h ∈ ["color"])
  ∧ (∀ h lg, ({[ "color" := Logic (Some true) (Some "AND") (Some "OR") ]}
                : gmap string logic) !! h = Some lg → asked lg)
  ∧ ∃ used, ["y"; "maybe"; " AND "; "OR"; "0"] = used ++ ["0"]
            ∧ 3 * length ["color"] ≤ length used.
Proof.
  apply (prompt_group_settings_complete id id ["color"]
           ["y"; "maybe"; " AND "; "OR"; "0"]).
  reflexivity.
Defined.

Lemma select_main_group_Some (parse_int : string → option Z)
    (headers inputs : list string) (main_group : option string)
    (rest : list string) :
  select_main_group parse_int headers inputs = Some (main_group, rest) →
  ∃ skipped line choice,
    inputs = skipped ++ line :: rest
    ∧ parse_int (strip line) = Some choice
    ∧ (choice = 0%Z ∧ main_group = None
       ∨ (1 ≤ choice ≤ Z.of_nat (length headers))%Z
         ∧ is_Some main_group
         ∧ main_group = headers !! Z.to_nat (choice - 1)).
Proof.
  induction inputs as [|line inputs IH]; [done|]. simpl.
  assert (select_main_group parse_int headers inputs = Some (main_group, rest)
          → ∃ skipped line0 choice,
              line :: inputs = skipped ++ line0 :: rest
              ∧ parse_int (strip line0) = Some choice
              ∧ (choice = 0%Z ∧ main_group = None
                 ∨ (1 ≤ choice ≤ Z.of_nat (length headers))%Z
                   ∧ is_Some main_group
                   ∧ main_group = headers !! Z.to_nat (choice - 1))) as Hskip.
  { intros (skipped & line0 & choice & -> & ? & ?)%IH.
    by exists (line :: skipped), line0, choice. }
  destruct (parse_int (strip line)) as [choice|] eqn:Hparse; [|done].
  case_bool_decide as Hzero.
  { intros [= <- <-]. exists [], line, choice. split_and!; [done..|by left]. }
  case_bool_decide as Hrange; [|done].
  destruct (headers !! Z.to_nat (choice - 1)) as [header|] eqn:Hheader; [|done].
  intros [= <- <-]. exists [], line, choice. split_and!; [done..|right].
  by rewrite Hheader.
Qed.


Lemma elem_of_keys_get_Some {V} (d : dict V) k :
  k ∈ keys d → ∃ v, get d k = Some v.
Proof.
  intros Hk. destruct (get d k) as [v|] eqn:Hget; [by exists v|].
  by apply get_None in Hget.
Qed.

Section assembly.
Context (o : set_order) (gl : gmap string logic).
Implicit Types gt : dict (gset string).

Lemma asked_has_quote_operator g lg :
  gl !! g = Some lg → asked lg → has_quote_operator gl g = true.
Proof.
  intros Hlg (q & op & iop & -> & _). unfold has_quote_operator.
  rewrite Hlg. simpl. by rewrite ?bool_decide_eq_true_2.
Qed.

Lemma has_quote_operator_has_quote g :
  has_quote_operator gl g = true → has_quote gl g = true.
Proof.
  unfold has_quote_operator, has_quote. destruct (gl !! g); [|done].
  by intros [? _]%andb_true_iff.
Qed.

Lemma has_quote_operator_has_operator g :
  has_quote_operator gl g = true → has_operator gl g = true.
Proof.
  unfold has_quote_operator, has_operator. destruct (gl !! g); [|done].
  by intros [_ ?]%andb_true_iff.
Qed.

Lemma parts_of_total items :
  (∀ kv, kv ∈ items → has_quote_operator gl kv.1 = true) →
  ∃ ps, parts_of o gl items = Ok ps.
Proof.
  induction items as [|kv rest IH]; intros Hall; [by eexists|]. simpl.
  destruct (has_quote_operator_clause_op o gl kv) as [c Hc]; [apply Hall; by left|].
  destruct (has_quote_clause o gl kv) as [c' Hc'].
  { apply has_quote_operator_has_quote, Hall. by left. }
  destruct IH as [ps ->]; [intros; apply Hall; by right|].
  destruct rest; rewrite ?Hc, ?Hc'; by eexists.
Qed.

Lemma build_query_total gt :
  (∀ g, g ∈ keys gt → has_quote_operator gl g = true) →
  ∃ q, build_query o gt gl = Ok q.
Proof.
  intros Hall. rewrite build_query_parts.
  destruct (parts_of_total (items_where (λ _ terms, nonempty terms) gt))
    as [ps ->]; [|by eexists].
  intros [g ts] [Hget%get_Some_elem_of _]%elem_of_items_where.
  apply Hall, list_elem_of_fmap. by exists (g, ts).
Qed.

Lemma logic_complete_total gt mg :
  (∀ g, g ∈ keys gt → has_quote_operator gl g = true) →
  mg ∈ keys gt → logic_complete gt gl mg = true.
Proof.
  intros Hall Hmg. unfold logic_complete. apply andb_true_iff. split.
  - by apply has_quote_operator_has_quote, Hall.
  - apply forallb_forall. intros [g ts] Hin%list_elem_of_In.
    apply list_elem_of_filter in Hin as [_ Hin].
    apply Hall, list_elem_of_fmap. by exists (g, ts).
Qed.
End assembly.

(** X20: with the settings that [prompt_group_settings] has collected for
    the columns of the terms mapping and the main group that
    [select_main_group] has returned for them, the assembly of [main]
    raises nothing: it returns one query per term of the main group, or
    the one combined query when no main group was chosen or the chosen
    column has the empty name; and the summary of the logic is defined
    as well. *)
Theorem main_assembly_returns (o : set_order) (upper lower : string → string)
    (parse_int : string → option Z) (gt : dict (gset string))
    (inputs inputs1 inputs2 : list string) (settings : gmap string logic)
    (main_group : option string) :
  prompt_group_settings upper lower (keys gt) inputs = Some (settings, inputs1) →
  select_main_group parse_int (keys gt) inputs1 = Some (main_group, inputs2) →
  (∃ qs,
     main_queries o gt settings main_group = Ok qs
     ∧ (truthy main_group = false → length qs = 1)
     ∧ (∀ mg ts, main_group = Some mg → mg ≠ "" → get gt mg = Some ts →
          length qs = size ts))
  ∧ ∃ summary, group_logic_summary gt settings main_group = Ok summary.
Proof.
  intros (Hdom & Hasked & _)%prompt_headers_Some Hselect.
  assert (∀ g, g ∈ keys gt → has_quote_operator settings g = true) as Hall.
  { intros g Hg. destruct (proj2 (Hdom g)) as [lg Hlg]; [by left|].
    eapply asked_has_quote_operator; [done|]. eapply Hasked; [|done].
    intros h lg'. by rewrite lookup_empty. }
  assert (∀ mg, main_group = Some mg → mg ∈ keys gt) as Hmain.
  { intros mg ->.
    apply select_main_group_Some in Hselect
      as (_ & _ & choice & _ & _ & [[_ ?]|(_ & _ & Hheader)]); [done|].
    symmetry in Hheader. by apply list_elem_of_lookup_2 in Hheader. }
  split.
  - destruct (build_query_total o settings gt Hall) as [q Hq].
    assert (∃ qs, (q ← build_query o gt settings;
                   mret [(None, q)] : result (list (option string * string)))
                  = Ok qs ∧ length qs = 1) as (qs1 & Hqs1 & Hlen1).
    { rewrite Hq. by eexists. }
    unfold main_queries. destruct main_group as [mg|]; simpl.
    + case_bool_decide as Hmg.
      * destruct (elem_of_keys_get_Some gt mg (Hmain mg eq_refl)) as [ts Hts].
        destruct (decide (ts = ∅)) as [->|Hne].
        -- assert (build_queries_by_main_group o gt settings mg = Ok [])
             as ->.
           { by rewrite (build_queries_unfold _ _ _ _ ∅), sorted_empty. }
           exists []. split_and!; [done..|].
           intros ?? [= <-] _ ?. simplify_eq. by rewrite size_empty.
        -- pose proof (logic_complete_total settings gt mg Hall
                         (Hmain mg eq_refl)) as Hcomplete.
           destruct (mapM_total
                       (query_for o settings mg
                          (items_where
                             (λ g terms,
                                bool_decide (g ≠ mg) && nonempty terms) gt))
                       (sorted o ts)) as [qs Hqs].
           { intros val _.
             destruct (query_for_total o gt settings mg val Hcomplete)
               as [q' Hq']. by eexists. }
           rewrite <-(build_queries_unfold o settings gt mg ts Hts) in Hqs.
           rewrite Hqs. exists (labelled qs). split_and!; [done..|].
           intros ?? [= <-] _ ?. simplify_eq. unfold labelled.
           rewrite length_fmap.
           apply build_queries_values in Hqs as (ts' & ? & Hvalues).
           simplify_eq.
           by rewrite <-(length_fmap fst), Hvalues, length_sorted.
      * exists qs1. split_and!; [done..|]. intros ?? [= <-] ?. done.
    + exists qs1. split_and!; done.
  - unfold group_logic_summary.
    destruct (mapM_total
                (λ g, lg ← logic_of settings g;
                      op ← field "operator" (operator lg);
                      mret (g +:+ ":" +:+ op +:+ "/"
                            +:+ get_internal_operator lg))
                (filter (λ g, Some g ≠ main_group) (keys gt)))
      as [parts ->]; [|by eexists].
    intros g [_ Hg]%list_elem_of_filter. apply summary_part_Ok.
    by apply has_quote_operator_has_operator, Hall.
Qed.

Lemma main_assembly_returns_witness :
  (∃ qs,
     main_queries elements_order fruit_terms
       {[ "fruit" := Logic (Some false) (Some "AND") (Some "OR") ]}
       (Some "fruit") = Ok qs
     ∧ (truthy (Some "fruit") = false → length qs = 1)
     ∧ (∀ mg ts, Some "fruit" = Some mg → mg ≠ "" →
          get fruit_terms mg = Some ts → length qs = size ts))
  ∧ ∃ summary,
      group_logic_summary fruit_terms
        {[ "fruit" := Logic (Some false) (Some "AND") (Some "OR") ]}
        (Some "fruit") = Ok summary.
Proof.
  apply (main_assembly_returns elements_order id id
           (λ s, if bool_decide (s = "1") then Some 1%Z else None)
           fruit_terms ["n"; "and"; "AND"; "OR"; "one"; "1"] ["one"; "1"] []).
  - reflexivity.
  - reflexivity.
Defined.

(** ** What the queries of one run share *)

Lemma join_snoc sep ps c :
  join sep (ps ++ [c])
  = match ps with
    | [] => ""
    | _ => join sep ps +:+ sep
    end +:+ c.
Proof.
  induction ps as [|p ps IH]; [done|].
  rewrite <-app_comm_cons, join_cons by (apply not_eq_sym, app_cons_not_nil).
  rewrite IH. destruct ps as [|p' ps].
  - unfold join. simpl. by rewrite append_assoc.
  - rewrite (join_cons sep p) by done. by rewrite !append_assoc.
Qed.

(** X21: the queries of one call of [build_queries_by_main_group] differ
    in their last clause only: any two of them are one and the same
    prefix (the clauses and operators of the static groups) followed by
    the clause of their own value. *)
Theorem build_queries_common_prefix (o : set_order) (gt : dict (gset string))
    (gl : gmap string logic) (mg : string) (qs : list (string * string))
    (v1 q1 v2 q2 : string) :
  build_queries_by_main_group o gt gl mg = Ok qs →
  (v1, q1) ∈ qs → (v2, q2) ∈ qs →
  ∃ prefix lg mq,
    gl !! mg = Some lg ∧ quote lg = Some mq
    ∧ q1 = prefix +:+ format_group o {[ v1 ]} mq (get_internal_operator lg)
    ∧ q2 = prefix +:+ format_group o {[ v2 ]} mq (get_internal_operator lg).
Proof.
  intros Hqs H1 H2.
  destruct (build_queries_values o gt gl mg qs Hqs) as (main_terms & Hget & _).
  rewrite (build_queries_unfold _ _ _ _ main_terms) in Hqs by done.
  apply mapM_Ok in Hqs.
  destruct (Forall2_elem_of_r _ _ _ _ Hqs H1) as (val1 & _ & Hq1).
  destruct (Forall2_elem_of_r _ _ _ _ Hqs H2) as (val2 & _ & Hq2).
  unfold query_for in Hq1, Hq2.
  destruct (mapM (clause_op o gl) _) as [ps|]; [|done].
  rewrite bind_Ok in Hq1, Hq2.
  destruct (clause o gl (mg, {[ val1 ]})) as [c1|] eqn:Hc1; [|done].
  destruct (clause o gl (mg, {[ val2 ]})) as [c2|] eqn:Hc2; [|done].
  rewrite bind_Ok in Hq1, Hq2. unfold mret, result_ret in Hq1, Hq2.
  injection Hq1 as -> <-. injection Hq2 as -> <-.
  apply clause_Ok_inv in Hc1 as (lg & mq & Hlg & Hmq & ->).
  apply clause_Ok_inv in Hc2 as (lg' & mq' & Hlg' & Hmq' & ->).
  simpl in *. assert (lg' = lg) as -> by congruence.
  assert (mq' = mq) as -> by congruence.
  exists (match ps with [] => "" | _ => join " " ps +:+ " " end), lg, mq.
  split_and!; [done..| |]; apply join_snoc.
Qed.

Lemma build_queries_common_prefix_witness :
  ∃ prefix lg mq,
    colour_logic !! "color" = Some lg ∧ quote lg = Some mq
    ∧ "(" +:+ quoted "large" +:+ ") AND (blue)"
      = prefix +:+ format_group elements_order {[ "blue" ]} mq
                     (get_internal_operator lg)
    ∧ "(" +:+ quoted "large" +:+ ") AND (red)"
      = prefix +:+ format_group elements_order {[ "red" ]} mq
                     (get_internal_operator lg).
Proof.
  apply (build_queries_common_prefix elements_order colour_terms colour_logic
           "color"
           [("blue", "(" +:+ quoted "large" +:+ ") AND (blue)");
            ("red", "(" +:+ quoted "large" +:+ ") AND (red)")]).
  - reflexivity.
  - left.
  - right. left.
Defined.
